(** * pimage: packaging configuration and image-construction pipeline

    The repository ships one Python source file, [setup.py], which is a
    single call of [distutils.core.setup] with keyword arguments.  It is
    embedded below as data (the keyword list of the call) together with an
    evaluator for the literal expressions it is made of.

    The image-construction components themselves (planner, allocator, loop
    devices, chroot, teardown) live in the installed script [src/pimage],
    which is not part of the sources at hand; they are modelled from the
    design document, each such definition saying so in its comment. *)

From Stdlib Require Import ZArith NArith Lia.
From stdpp Require Import base option list strings gmap sorting.

Set Warnings "-register-all".
Local Open Scope string_scope.

(* ===================================================================== *)
(** * Part I: definitions *)
(* ===================================================================== *)

(** ** setup.py *)

Module SetupPy.

(** The expression forms that occur in the argument list of the call:
    string literals, list displays, tuple displays.  Names are included
    so that evaluation has an environment to depend on. *)
Inductive pyexpr : Type :=
| EStr (s : string)
| EName (x : string)
| EList (es : list pyexpr)
| ETuple (es : list pyexpr).

Inductive pyval : Type :=
| VStr (s : string)
| VList (vs : list pyval)
| VTuple (vs : list pyval).

(** Evaluation under the module's global bindings; an unbound name is a
    [NameError], rendered as [None]. *)
Fixpoint eval (env : gmap string pyval) (e : pyexpr) : option pyval :=
  match e with
  | EStr s => Some (VStr s)
  | EName x => env !! x
  | EList es =>
      VList <$> (fix go (l : list pyexpr) : option (list pyval) :=
                   match l with
                   | [] => Some []
                   | e' :: l' =>
                       match eval env e', go l' with
                       | Some v, Some vs => Some (v :: vs)
                       | _, _ => None
                       end
                   end) es
  | ETuple es =>
      VTuple <$> (fix go (l : list pyexpr) : option (list pyval) :=
                    match l with
                    | [] => Some []
                    | e' :: l' =>
                        match eval env e', go l' with
                        | Some v, Some vs => Some (v :: vs)
                        | _, _ => None
                        end
                    end) es
  end.

(** An expression without names. *)
Fixpoint literal (e : pyexpr) : bool :=
  match e with
  | EStr _ => true
  | EName _ => false
  | EList es | ETuple es =>
      (fix go (l : list pyexpr) : bool :=
         match l with
         | [] => true
         | e' :: l' => literal e' && go l'
         end) es
  end.

(** setup.py, lines 4-12: the keyword arguments of [setup(...)], in the
    order they are written. *)
Definition setup_kwargs : list (string * pyexpr) :=
  [ ("name", EStr "pimage");
    ("version", EStr "0.1");
    ("description", EStr "Create and manage Raspberry PI images");
    ("author", EStr "Antonio Serrano Hernandez");
    ("author_email", EStr "toni.serranoh@gmail.com");
    ("scripts", EList [EStr "src/pimage"]);
    ("data_files",
      EList [ETuple [EStr "share/pimage/qemu";
                     EList [EStr "files/qemu/qemu-arm"]]]) ].

Fixpoint eval_kwargs (env : gmap string pyval) (kws : list (string * pyexpr))
  : option (list (string * pyval)) :=
  match kws with
  | [] => Some []
  | (k, e) :: rest =>
      match eval env e, eval_kwargs env rest with
      | Some v, Some vs => Some ((k, v) :: vs)
      | _, _ => None
      end
  end.

(** What [setup] keeps of its keyword arguments: the distribution
    metadata and the two file lists. *)
Record DistMetadata : Type := {
  md_name : option string;
  md_version : option string;
  md_description : option string;
  md_author : option string;
  md_author_email : option string;
  md_scripts : list string;
  md_data_files : list (string * list string)
}.

Definition as_str (v : pyval) : option string :=
  match v with VStr s => Some s | _ => None end.

Fixpoint as_strs (vs : list pyval) : option (list string) :=
  match vs with
  | [] => Some []
  | v :: rest =>
      match as_str v, as_strs rest with
      | Some s, Some ss => Some (s :: ss)
      | _, _ => None
      end
  end.

Definition as_str_list (v : pyval) : option (list string) :=
  match v with VList vs => as_strs vs | _ => None end.

Definition as_data_entry (v : pyval) : option (string * list string) :=
  match v with
  | VTuple [VStr dir; files] =>
      match as_str_list files with
      | Some fs => Some (dir, fs)
      | None => None
      end
  | _ => None
  end.

Fixpoint as_data_entries (vs : list pyval) : option (list (string * list string)) :=
  match vs with
  | [] => Some []
  | v :: rest =>
      match as_data_entry v, as_data_entries rest with
      | Some d, Some ds => Some (d :: ds)
      | _, _ => None
      end
  end.

Definition as_data_files (v : pyval) : option (list (string * list string)) :=
  match v with VList vs => as_data_entries vs | _ => None end.

Fixpoint kw_get (k : string) (kws : list (string * pyval)) : option pyval :=
  match kws with
  | [] => None
  | (k', v) :: rest => if String.eqb k k' then Some v else kw_get k rest
  end.

(** A keyword that is absent keeps its default (no text, no files); one
    that is present must have the expected shape. *)
Definition opt_field {A} (conv : pyval -> option A) (dflt : A)
  (k : string) (kws : list (string * pyval)) : option A :=
  match kw_get k kws with
  | None => Some dflt
  | Some v => conv v
  end.

Definition setup (kws : list (string * pyval)) : option DistMetadata :=
  n ← opt_field (fun v => Some <$> as_str v) None "name" kws;
  ver ← opt_field (fun v => Some <$> as_str v) None "version" kws;
  d ← opt_field (fun v => Some <$> as_str v) None "description" kws;
  a ← opt_field (fun v => Some <$> as_str v) None "author" kws;
  ae ← opt_field (fun v => Some <$> as_str v) None "author_email" kws;
  sc ← opt_field as_str_list [] "scripts" kws;
  df ← opt_field as_data_files [] "data_files" kws;
  Some {| md_name := n; md_version := ver; md_description := d;
          md_author := a; md_author_email := ae;
          md_scripts := sc; md_data_files := df |}.

(** One run of the packaging configuration under given global bindings. *)
Definition setup_py (env : gmap string pyval) : option DistMetadata :=
  eval_kwargs env setup_kwargs ≫= setup.

(** The files a distribution installs as data, each with its target
    directory. *)
Definition installed_data (md : DistMetadata) : list (string * string) :=
  flat_map (fun '(dir, files) => map (fun f => (dir, f)) files) (md_data_files md).

(** The metadata the file spells out. *)
Definition pimage_metadata : DistMetadata :=
  {| md_name := Some "pimage";
     md_version := Some "0.1";
     md_description := Some "Create and manage Raspberry PI images";
     md_author := Some "Antonio Serrano Hernandez";
     md_author_email := Some "toni.serranoh@gmail.com";
     md_scripts := ["src/pimage"];
     md_data_files := [("share/pimage/qemu", ["files/qemu/qemu-arm"])] |}.

End SetupPy.

(** ** setup.py as a module: the import and the call *)

Module SetupModule.
Import SetupPy.

(** What a global name can be bound to: a value, or a function known by
    the module that defines it and its name there. *)
Inductive pyobj : Type :=
| OVal (v : pyval)
| OFunc (module name : string).

(** The two statement forms of the file: [from module import name], and
    an expression statement that calls a global name with keyword
    arguments. *)
Inductive stmt : Type :=
| SFromImport (module name : string)
| SCall (callee : string) (kwargs : list (string * pyexpr)).

(** setup.py, line 2 and lines 4-12. *)
Definition setup_module : list stmt :=
  [ SFromImport "distutils.core" "setup";
    SCall "setup" setup_kwargs ].

Inductive pyerror : Type :=
| SyntaxError
| ModuleNotFoundError (module : string)
| ImportError (module name : string)
| NameError (name : string)
| TypeError
| ArgumentError.

(** A call the module made: which function, with which keyword values. *)
Record Call : Type := {
  call_module : string;
  call_name : string;
  call_kwargs : list (string * pyval)
}.

Record State : Type := {
  globals : gmap string pyobj;
  calls : list Call
}.

(** The bindings an expression can see: the globals that hold values. *)
Definition values (g : gmap string pyobj) : gmap string pyval :=
  omap (fun o => match o with OVal v => Some v | OFunc _ _ => None end) g.

(** The dotted prefixes of a module name, shortest first:
    [distutils.core] gives [distutils] and [distutils.core]. *)
Fixpoint prefixes_from (acc rest : string) : list string :=
  match rest with
  | EmptyString => [acc]
  | String c rest' =>
      if Ascii.eqb c (Ascii.ascii_of_nat 46)
      then acc :: prefixes_from (String.append acc ".") rest'
      else prefixes_from (String.append acc (String c EmptyString)) rest'
  end.

Definition dotted_prefixes (m : string) : list string := prefixes_from "" m.

(** The package or module an import that cannot be satisfied complains
    about: the first one on the dotted path that is not importable. *)
Fixpoint first_missing (importable : gmap string (gmap string pyobj))
  (path : list string) (dflt : string) : string :=
  match path with
  | [] => dflt
  | q :: rest =>
      match importable !! q with
      | None => q
      | Some _ => first_missing importable rest dflt
      end
  end.

(** One statement.  The import looks the module up among the importable
    ones (a module that is importable has its parent packages importable
    too, so only a failed import looks at them) and the name in it, and
    binds the name in the globals; the call looks its callee up in the
    globals, evaluates the keyword arguments in the order written and
    records the call.  The globals are the names the statements of the
    module bind: entries the interpreter keeps in the same namespace for
    its own bookkeeping, such as the registry of warnings already shown,
    are not part of them. *)
Definition exec_stmt (importable : gmap string (gmap string pyobj))
  (s : stmt) (st : State) : pyerror + State :=
  match s with
  | SFromImport m x =>
      match importable !! m with
      | None => inl (ModuleNotFoundError (first_missing importable (dotted_prefixes m) m))
      | Some ns =>
          match ns !! x with
          | None => inl (ImportError m x)
          | Some o => inr {| globals := <[x := o]> (globals st); calls := calls st |}
          end
      end
  | SCall f kws =>
      match globals st !! f with
      | None => inl (NameError f)
      | Some (OVal _) => inl TypeError
      | Some (OFunc m x) =>
          match eval_kwargs (values (globals st)) kws with
          | None => inl ArgumentError
          | Some vs =>
              inr {| globals := globals st;
                     calls := calls st ++
                       [ {| call_module := m; call_name := x; call_kwargs := vs |} ] |}
          end
      end
  end.

(** Statements run in order; the first error stops the module, and the
    state is the one reached so far. *)
Fixpoint exec_stmts (importable : gmap string (gmap string pyobj))
  (ss : list stmt) (st : State) : option pyerror * State :=
  match ss with
  | [] => (None, st)
  | s :: rest =>
      match exec_stmt importable s st with
      | inl e => (Some e, st)
      | inr st' => exec_stmts importable rest st'
      end
  end.

(** A call that repeats a keyword is rejected when the file is compiled,
    before any statement runs. *)
Definition keywords_distinct (s : stmt) : bool :=
  match s with
  | SFromImport _ _ => true
  | SCall _ kws => bool_decide (NoDup (map fst kws))
  end.

Definition run_module (importable : gmap string (gmap string pyobj))
  (g : gmap string pyobj) (ss : list stmt) : option pyerror * State :=
  let st := {| globals := g; calls := [] |} in
  if forallb keywords_distinct ss then exec_stmts importable ss st
  else (Some SyntaxError, st).

(** An installation in which [distutils.core] provides [setup], and
    globals in which the name [setup] already means something else. *)
Definition with_distutils : gmap string (gmap string pyobj) :=
  {[ "distutils.core" := {[ "setup" := OFunc "distutils.core" "setup" ]} ]}.

(** An installation that has the package [distutils] but no module
    [distutils.core] in it. *)
Definition without_core : gmap string (gmap string pyobj) :=
  {[ "distutils" := ∅ ]}.

Definition shadowed_globals : gmap string pyobj :=
  {[ "setup" := OVal (VStr "not a function") ]}.

End SetupModule.

(** ** Partition Planner (design document, sections 3 and 4.1) *)

Module Planner.
Local Open Scope N_scope.

(** Modelled from the spec: the filesystem types the design document
    names for partitions (the planner's source is not at hand). *)
Inductive FsType : Type := Fat32 | Ext4.

(** Modelled from the spec: a logical-volume request, "name, minimum size
    or remaining, filesystem type, mount point, optional boot flag". *)
Inductive SizeReq : Type :=
| MinSize (bytes : N)
| Remaining.

Record VolumeRequest : Type := {
  vr_name : string;
  vr_size : SizeReq;
  vr_fs : FsType;
  vr_mount : string;
  vr_boot : bool
}.

(** Modelled from the spec: a planned partition and the image plan
    (section 3), with the start offset the invariant speaks of. *)
Record PartitionSpec : Type := {
  ps_name : string;
  ps_offset : N;
  ps_size : N;
  ps_fs : FsType;
  ps_mount : string;
  ps_boot : bool
}.

Record ImagePlan : Type := {
  total_bytes : N;
  partitions : list PartitionSpec
}.

Inductive PlanError : Type := Oversized | InvalidBootFlag.

Definition ps_end (p : PartitionSpec) : N := ps_offset p + ps_size p.

(** Next multiple of the alignment at or after [x]. *)
Definition align_up (a : positive) (x : N) : N :=
  ((x + N.pos a - 1) / N.pos a) * N.pos a.

(** The bytes a request asks for before any padding; "remaining" asks
    for nothing of its own. *)
Definition requested (r : VolumeRequest) : N :=
  match vr_size r with
  | MinSize n => n
  | Remaining => 0
  end.

Definition requested_total (rs : list VolumeRequest) : N :=
  foldr N.add 0 (map requested rs).

Definition boot_count (rs : list VolumeRequest) : nat :=
  length (filter (fun r => vr_boot r = true) rs).

(** Modelled from the spec: the planner's layout step (its code is
    missing): offsets are assigned in request order, each
    start rounded up to the alignment; a "remaining" volume takes what is
    left up to the total size.  [None] when a volume does not fit. *)
Fixpoint layout (a : positive) (total cursor : N) (rs : list VolumeRequest)
  : option (list PartitionSpec) :=
  match rs with
  | [] => Some []
  | r :: rest =>
      let start := align_up a cursor in
      let size := match vr_size r with
                  | MinSize n => n
                  | Remaining => total - start
                  end in
      if (start + size <=? total)%N then
        match layout a total (start + size) rest with
        | Some ps =>
            Some ({| ps_name := vr_name r; ps_offset := start; ps_size := size;
                     ps_fs := vr_fs r; ps_mount := vr_mount r;
                     ps_boot := vr_boot r |} :: ps)
        | None => None
        end
      else None
  end.

(** Modelled from the spec: the Partition Planner of section 4.1, whose
    code (in the script [src/pimage]) is not among the sources.  It is a
    function of its arguments only.  The requested sizes are checked
    against the total first ("even before alignment padding"), then the
    boot flags; a layout that stops fitting once padded is oversized as
    well, since a plan never extends past its total size.  The design
    document names no error for a "remaining" volume that is not last or
    not alone, and fixes neither the order of the two checks nor the
    error for an overflow after padding: here such a volume is laid out
    like any other, taking what is left at its place. *)
Definition plan_image (a : positive) (total : N) (rs : list VolumeRequest)
  : PlanError + ImagePlan :=
  if (total <? requested_total rs)%N then inl Oversized
  else if (1 <? boot_count rs)%nat then inl InvalidBootFlag
  else match layout a total 0 rs with
       | Some ps => inr {| total_bytes := total; partitions := ps |}
       | None => inl Oversized
       end.

Definition aligned (a : positive) (p : PartitionSpec) : Prop :=
  (ps_offset p mod N.pos a = 0)%N.

Definition MiB : N := 1048576.

(** The scenario of section 8: 256 MiB, a 64 MiB boot volume and a root
    volume taking the rest. *)
Definition scenario_requests : list VolumeRequest :=
  [ {| vr_name := "boot"; vr_size := MinSize (64 * MiB); vr_fs := Fat32;
       vr_mount := "/boot"; vr_boot := true |};
    {| vr_name := "root"; vr_size := Remaining; vr_fs := Ext4;
       vr_mount := "/"; vr_boot := false |} ].

Definition scenario_plan : ImagePlan :=
  {| total_bytes := 256 * MiB;
     partitions :=
       [ {| ps_name := "boot"; ps_offset := 0; ps_size := 64 * MiB;
            ps_fs := Fat32; ps_mount := "/boot"; ps_boot := true |};
         {| ps_name := "root"; ps_offset := 64 * MiB; ps_size := 192 * MiB;
            ps_fs := Ext4; ps_mount := "/"; ps_boot := false |} ] |}.

End Planner.

(** ** Image Allocator (design document, section 4.2) *)

Module Allocator.
Import Planner.
Local Close Scope string_scope.
Local Open Scope N_scope.

Inductive AllocationError : Type := InsufficientSpace | WriteFailed.

Inductive TableScheme : Type := MBR | GPT.

(** Modelled from the spec: a sparse file, "logical size reserved,
    physical blocks allocated lazily", unwritten regions reading as zero
    (glossary).  Bytes are numbers below 256. *)
Record SparseFile : Type := {
  sf_size : N;
  sf_data : gmap N N
}.

Definition sf_create (size : N) : SparseFile :=
  {| sf_size := size; sf_data := ∅ |}.



Fixpoint put_bytes (off : N) (bs : list N) (d : gmap N N) : gmap N N :=
  match bs with
  | [] => d
  | b :: rest => put_bytes (off + 1) rest (<[off := b]> d)
  end.

(** Writing past the logical size fails. *)
Definition sf_write (off : N) (bs : list N) (f : SparseFile) : option SparseFile :=
  if off + N.of_nat (length bs) <=? sf_size f
  then Some {| sf_size := sf_size f; sf_data := put_bytes off bs (sf_data f) |}
  else None.

(** Little-endian fields. *)
Fixpoint le_bytes (n : nat) (x : N) : list N :=
  match n with
  | O => []
  | S k => x mod 256 :: le_bytes k (x / 256)
  end.

Fixpoint le_value (bs : list N) : N :=
  match bs with
  | [] => 0
  | b :: rest => b + 256 * le_value rest
  end.

(** Reading a field off the front of a buffer. *)
Definition take_bytes (n : nat) (bs : list N) : option (list N * list N) :=
  if (length bs <? n)%nat then None else Some (take n bs, drop n bs).

Definition take_le (n : nat) (bs : list N) : option (N * list N) :=
  match take_bytes n bs with
  | Some (f, rest) => Some (le_value f, rest)
  | None => None
  end.

(** What a partition table says about one partition, in bytes. *)
Record TableEntry : Type := {
  te_offset : N;
  te_size : N;
  te_type : FsType
}.

Definition entry_of (p : PartitionSpec) : TableEntry :=
  {| te_offset := ps_offset p; te_size := ps_size p; te_type := ps_fs p |}.

Definition sector_size : N := 512.

(** A byte count as a whole number of sectors, if it is one. *)
Definition sectors_of (bytes : N) : option N :=
  if bytes mod sector_size =? 0 then Some (bytes / sector_size) else None.

(** Fixed-size slots, written one after the other and read back in
    order; a slot may be unused. *)
Fixpoint parse_slots {A} (size : nat) (decode : list N -> option (option A))
  (n : nat) (bs : list N) : option (list A * list N) :=
  match n with
  | O => Some ([], bs)
  | S k =>
      match take_bytes size bs with
      | Some (slot, rest) =>
          match decode slot, parse_slots size decode k rest with
          | Some (Some e), Some (es, rest') => Some (e :: es, rest')
          | Some None, Some (es, rest') => Some (es, rest')
          | _, _ => None
          end
      | None => None
      end
  end.

(** *** Master boot record *)

Definition mbr_type_code (fs : FsType) : N :=
  match fs with
  | Fat32 => 12    (* 0x0C, FAT32 with LBA *)
  | Ext4 => 131    (* 0x83, Linux *)
  end.

Definition mbr_fs_of_code (c : N) : option FsType :=
  if c =? 12 then Some Fat32
  else if c =? 131 then Some Ext4
  else None.

Definition mbr_protective_code : N := 238.   (* 0xEE *)

(** Modelled from the spec (a "standards-compliant" MBR, section 6): a
    16-byte entry: status, CHS start, type, CHS end, first sector and
    sector count as 32-bit little-endian numbers.  A partition that is
    not a whole number of sectors, or does not fit 32 bits, cannot be
    written. *)
Definition mbr_raw_entry (status type lba count : N) : list N :=
  [status] ++ [254; 255; 255] ++ [type] ++ [254; 255; 255]
  ++ le_bytes 4 lba ++ le_bytes 4 count.

Definition mbr_entry (p : PartitionSpec) : option (list N) :=
  match sectors_of (ps_offset p), sectors_of (ps_size p) with
  | Some lba, Some count =>
      if (lba <? 2 ^ 32) && (count <? 2 ^ 32)
      then Some (mbr_raw_entry (if ps_boot p then 128 else 0)
                               (mbr_type_code (ps_fs p)) lba count)
      else None
  | _, _ => None
  end.

(** The same entry as the parser hands it back. *)
Definition mbr_raw_of (p : PartitionSpec) : N * N * N :=
  (mbr_type_code (ps_fs p), ps_offset p / sector_size, ps_size p / sector_size).

Definition mbr_unused : list N := replicate 16 0.

Definition mbr_signature : list N := [85; 170].

Definition mbr_sector (slots : list (list N)) : list N :=
  replicate 446 0 ++ concat slots ++ mbr_signature.

Definition mbr_table (ps : list PartitionSpec) : option (list N) :=
  if (4 <? length ps)%nat then None
  else match mapM mbr_entry ps with
       | Some encs =>
           Some (mbr_sector (encs ++ replicate (4 - length ps) mbr_unused))
       | None => None
       end.

(** Modelled from the spec: reading an MBR entry back (missing parser):
    an entry as found on disk is a type code, a first sector and a sector
    count; type 0 marks an unused slot. *)
Definition mbr_decode_raw (slot : list N) : option (option (N * N * N)) :=
  match take_bytes 4 slot with
  | Some (_, r1) =>
      match take_le 1 r1 with
      | Some (type, r2) =>
          match take_bytes 3 r2 with
          | Some (_, r3) =>
              match take_le 4 r3 with
              | Some (lba, r4) =>
                  match take_le 4 r4 with
                  | Some (count, _) =>
                      if type =? 0 then Some None
                      else Some (Some (type, lba, count))
                  | None => None
                  end
              | None => None
              end
          | None => None
          end
      | None => None
      end
  | None => None
  end.

Definition mbr_read_raw (sector : list N) : option (list (N * N * N)) :=
  match take_bytes 446 sector with
  | Some (_, r) =>
      match parse_slots 16 mbr_decode_raw 4 r with
      | Some (raws, sig) =>
          if decide (sig = mbr_signature) then Some raws else None
      | None => None
      end
  | None => None
  end.

Definition mbr_entry_of_raw (raw : N * N * N) : option TableEntry :=
  let '(type, lba, count) := raw in
  match mbr_fs_of_code type with
  | Some fs => Some {| te_offset := lba * sector_size;
                       te_size := count * sector_size; te_type := fs |}
  | None => None
  end.

(** *** GUID partition table *)

(** Cyclic redundancy check of the table (CRC-32, reflected, polynomial
    0xEDB88320). *)
Definition crc_shift (c : N) : N :=
  if N.odd c then N.lxor (N.shiftr c 1) 3988292384 else N.shiftr c 1.

Definition crc_byte (c b : N) : N := Nat.iter 8 crc_shift (N.lxor c b).

Definition crc32 (bs : list N) : N :=
  N.lxor (fold_left crc_byte bs 4294967295) 4294967295.

Definition gpt_type_guid (fs : FsType) : list N :=
  match fs with
  | Fat32 =>  (* EBD0A0A2-B9E5-4433-87C0-68B6B72699C7, basic data *)
      [162; 160; 208; 235; 229; 185; 51; 68; 135; 192; 104; 182; 183; 38; 153; 199]
  | Ext4 =>   (* 0FC63DAF-8483-4772-8E79-3D69D8477DE4, Linux filesystem *)
      [175; 61; 198; 15; 131; 132; 114; 71; 142; 121; 61; 105; 216; 71; 125; 228]
  end.

Definition gpt_fs_of_guid (g : list N) : option FsType :=
  if decide (g = gpt_type_guid Fat32) then Some Fat32
  else if decide (g = gpt_type_guid Ext4) then Some Ext4
  else None.

Definition gpt_entry_size : nat := 128.
Definition gpt_entry_count : nat := 128.

(** A partition name as 36 UTF-16 code units. *)
Definition gpt_name (name : string) : list N :=
  let units := take 36 (map Ascii.N_of_ascii (String.list_ascii_of_string name)) in
  flat_map (fun c => [c; 0]) units ++ replicate (72 - 2 * length units) 0.

(** Modelled from the spec (a "standards-compliant" GPT, section 6): a
    128-byte entry: type GUID, partition GUID, first and last sector as
    64-bit little-endian numbers, attributes, name.  The partition GUID
    is derived from the slot number.  An empty partition has no last
    sector and cannot be written. *)
Definition gpt_entry (slot : nat) (p : PartitionSpec) : option (list N) :=
  match sectors_of (ps_offset p), sectors_of (ps_size p) with
  | Some first, Some count =>
      if (0 <? count) && (first + count <? 2 ^ 64)
      then Some (gpt_type_guid (ps_fs p)
                 ++ le_bytes 16 (N.of_nat slot + 1)
                 ++ le_bytes 8 first
                 ++ le_bytes 8 (first + count - 1)
                 ++ le_bytes 8 (if ps_boot p then 4 else 0)
                 ++ gpt_name (ps_name p))
      else None
  | _, _ => None
  end.

Fixpoint gpt_entries_from (slot : nat) (ps : list PartitionSpec)
  : option (list (list N)) :=
  match ps with
  | [] => Some []
  | p :: rest =>
      match gpt_entry slot p, gpt_entries_from (S slot) rest with
      | Some e, Some es => Some (e :: es)
      | _, _ => None
      end
  end.

Definition gpt_unused : list N := replicate gpt_entry_size 0.

Definition gpt_decode_entry (slot : list N) : option (option TableEntry) :=
  match take_bytes 16 slot with
  | Some (type, r1) =>
      match take_bytes 16 r1 with
      | Some (_, r2) =>
          match take_le 8 r2 with
          | Some (first, r3) =>
              match take_le 8 r3 with
              | Some (last, _) =>
                  if decide (type = replicate 16 0) then Some None
                  else match gpt_fs_of_guid type with
                       | Some fs =>
                           Some (Some {| te_offset := first * sector_size;
                                         te_size := (last + 1 - first) * sector_size;
                                         te_type := fs |})
                       | None => None
                       end
              | None => None
              end
          | None => None
          end
      | None => None
      end
  | None => None
  end.

Definition gpt_signature : list N := [69; 70; 73; 32; 80; 65; 82; 84].  (* "EFI PART" *)
Definition gpt_revision : list N := [0; 0; 1; 0].
Definition gpt_disk_guid : list N := le_bytes 16 1.

(** The 92-byte header, split around its own checksum field. *)
Definition gpt_header_front : list N :=
  gpt_signature ++ gpt_revision ++ le_bytes 4 92.

Definition gpt_header_middle (current backup first_usable last_usable : N) : list N :=
  le_bytes 4 0
  ++ le_bytes 8 current ++ le_bytes 8 backup
  ++ le_bytes 8 first_usable ++ le_bytes 8 last_usable
  ++ gpt_disk_guid.

Definition gpt_header_back (current backup first_usable last_usable entries_lba : N)
  (entries_crc : N) : list N :=
  gpt_header_middle current backup first_usable last_usable
  ++ le_bytes 8 entries_lba
  ++ le_bytes 4 (N.of_nat gpt_entry_count)
  ++ le_bytes 4 (N.of_nat gpt_entry_size)
  ++ le_bytes 4 entries_crc.

Definition gpt_header (current backup first_usable last_usable entries_lba : N)
  (entries_crc : N) : list N :=
  let back := gpt_header_back current backup first_usable last_usable
                entries_lba entries_crc in
  gpt_header_front
  ++ le_bytes 4 (crc32 (gpt_header_front ++ le_bytes 4 0 ++ back))
  ++ back.

(** The protective MBR of a GPT disk: one entry of type 0xEE covering
    the disk from sector 1. *)
Definition gpt_protective_mbr (sectors : N) : list N :=
  mbr_sector
    ([ mbr_raw_entry 0 mbr_protective_code 1 (N.min (sectors - 1) (2 ^ 32 - 1)) ]
     ++ replicate 3 mbr_unused).

(** *** Writing and reading the table *)

(** Modelled from the spec: the table writers of the missing allocator;
    the entries "exactly mirror the ImagePlan offsets/sizes/types". *)
Definition write_mbr (plan : ImagePlan) (f : SparseFile) : option SparseFile :=
  match mbr_table (partitions plan) with
  | Some sector => sf_write 0 sector f
  | None => None
  end.

(** Modelled from the spec: the GUID table writer (missing code), laid
    out as the standard has it: sector 0 holds the protective MBR,
    sector 1 the header, sectors 2 to 33 the entries; the last 33 sectors
    hold the backup copy. *)
Definition write_gpt (plan : ImagePlan) (f : SparseFile) : option SparseFile :=
  match sectors_of (sf_size f), gpt_entries_from 0 (partitions plan) with
  | Some sectors, Some encs =>
      if (length encs <=? gpt_entry_count)%nat && (68 <=? sectors) && (sectors <? 2 ^ 64)
      then
        let array := concat (encs ++ replicate (gpt_entry_count - length encs) gpt_unused) in
        let ecrc := crc32 array in
        let last := sectors - 1 in
        f1 ← sf_write 0 (gpt_protective_mbr sectors) f;
        f2 ← sf_write sector_size (gpt_header 1 last 34 (sectors - 34) 2 ecrc) f1;
        f3 ← sf_write (2 * sector_size) array f2;
        f4 ← sf_write ((sectors - 33) * sector_size) array f3;
        sf_write (last * sector_size)
                 (gpt_header last 1 34 (sectors - 34) (sectors - 33) ecrc) f4
      else None
  | _, _ => None
  end.

Definition write_table (scheme : TableScheme) (plan : ImagePlan) (f : SparseFile)
  : option SparseFile :=
  match scheme with
  | MBR => write_mbr plan f
  | GPT => write_gpt plan f
  end.



(** Modelled from the spec: the Image Allocator of section 4.2, whose
    code is not among the sources.  It creates a sparse file of exactly
    the plan's total size and writes the table into it;
    [fs_limit] is the largest file the underlying filesystem can hold.
    A table that cannot be written as the plan has it is a [WriteFailed],
    and no file is returned. *)
Definition allocate (scheme : TableScheme) (fs_limit : N) (plan : ImagePlan)
  : AllocationError + SparseFile :=
  if fs_limit <? total_bytes plan then inl InsufficientSpace
  else match write_table scheme plan (sf_create (total_bytes plan)) with
       | Some f => inr f
       | None => inl WriteFailed
       end.

(** Partitions the two kinds of table can hold. *)
Definition mbr_representable (p : PartitionSpec) : bool :=
  (ps_offset p mod sector_size =? 0) && (ps_size p mod sector_size =? 0)
  && (ps_offset p / sector_size <? 2 ^ 32) && (ps_size p / sector_size <? 2 ^ 32).

Definition gpt_representable (p : PartitionSpec) : bool :=
  (ps_offset p mod sector_size =? 0) && (ps_size p mod sector_size =? 0)
  && (0 <? ps_size p / sector_size)
  && (ps_offset p / sector_size + ps_size p / sector_size <? 2 ^ 64).


End Allocator.

(** ** Loop Device Manager (design document, section 4.3) *)

Module LoopDev.
Local Open Scope N_scope.

Inductive LoopError : Type := NoFreeDevice | Busy.

(** Modelled from the spec: what a loop device is bound to, "a region of
    the backing file". *)
Record Binding : Type := {
  b_file : string;
  b_offset : N;
  b_size : N
}.

#[global] Instance Binding_eq_dec : EqDecision Binding.
Proof. solve_decision. Defined.

(** Modelled from the spec: the handle [attach] returns, the device
    (its number, as in [/dev/loopN]) together with the region bound. *)
Record LoopHandle : Type := {
  lh_dev : nat;
  lh_binding : Binding
}.

(** Modelled from the spec: the host's pool of loop devices, a fixed
    number of devices of which some are bound. *)
Record Pool : Type := {
  pool_size : nat;
  bound : gmap nat Binding
}.

Fixpoint first_free (bd : gmap nat Binding) (i n : nat) : option nat :=
  match n with
  | O => None
  | S n' =>
      match bd !! i with
      | None => Some i
      | Some _ => first_free bd (S i) n'
      end
  end.

Definition regions_overlap (x y : Binding) : bool :=
  String.eqb (b_file x) (b_file y)
  && (b_offset x <? b_offset y + b_size y)
  && (b_offset y <? b_offset x + b_size x).

Definition region_busy (b : Binding) (bd : gmap nat Binding) : bool :=
  existsb (fun kv => regions_overlap b (snd kv)) (map_to_list bd).

(** Modelled from the spec: [attach(file, byte_offset, byte_size)] of
    the Loop Device Manager (its code is missing) binds
    the region to a free device; [Busy] when the region is already bound,
    [NoFreeDevice] when the pool is exhausted. *)
Definition attach (file : string) (offset size : N) (p : Pool)
  : LoopError + (LoopHandle * Pool) :=
  let b := {| b_file := file; b_offset := offset; b_size := size |} in
  if region_busy b (bound p) then inl Busy
  else match first_free (bound p) 0 (pool_size p) with
       | None => inl NoFreeDevice
       | Some d =>
           inr ({| lh_dev := d; lh_binding := b |},
                {| pool_size := pool_size p; bound := <[d := b]> (bound p) |})
       end.

(** Modelled from the spec: [detach(LoopHandle)] of the Loop Device
    Manager (section 4.3; its code is missing).  It unbinds the device when
    it still carries the handle's binding, and otherwise leaves the pool
    as it is; in both cases it succeeds. *)
Definition detach (h : LoopHandle) (p : Pool) : LoopError + Pool :=
  match bound p !! lh_dev h with
  | Some b =>
      if decide (b = lh_binding h)
      then inr {| pool_size := pool_size p; bound := delete (lh_dev h) (bound p) |}
      else inr p
  | None => inr p
  end.

(** A handle is attached in a pool when its device carries its binding. *)
Definition attached (h : LoopHandle) (p : Pool) : Prop :=
  bound p !! lh_dev h = Some (lh_binding h).

End LoopDev.

(** ** Chroot Session (design document, section 4.7) *)

Module Chroot.

Inductive ChrootError : Type := PermissionDenied | RootInvalid.

(** Modelled from the spec: what the session captures of a command,
    "stdout, stderr and the numeric exit status" (the session's code is
    not among the sources). *)
Record ExitStatus : Type := {
  es_code : Z;
  es_stdout : string;
  es_stderr : string
}.

(** A world in which [true] exits with 0 and anything else with 1. *)
Definition sample_program (root command : string) (args : list string) : ExitStatus :=
  {| es_code := if String.eqb command "true" then 0%Z else 1%Z;
     es_stdout := ""; es_stderr := "" |}.

End Chroot.

(** ** Build session, pipeline and Teardown Coordinator
       (design document, sections 2, 3, 4.8 and 7) *)

Module Teardown.
Import Planner.

Inductive FormatError : Type := UnsupportedType | ToolFailed (exit_code : Z).
Inductive PopulateError : Type := CorruptArchive | BootstrapFailed (reason : string).
Inductive MountError : Type := TargetMissing | KernelMountFailed (errno : Z).
Inductive EmulationError : Type := RegistrationFailed.

(** Modelled from the spec: the error taxonomy of section 7. *)
Inductive BuildError : Type :=
| EPlan (e : PlanError)
| EAllocation (e : Allocator.AllocationError)
| ELoop (e : LoopDev.LoopError)
| EFormat (e : FormatError)
| EPopulate (e : PopulateError)
| EMount (e : MountError)
| EEmulation (e : EmulationError)
| EChroot (e : Chroot.ChrootError).

(** Modelled from the spec: a resource handle, "tagged union over
    LoopDevice, MountPoint, EmulationRegistration, OpenFileDescriptor,
    each carrying the system identifier needed to release it and a
    monotonically increasing acquisition sequence number". *)
Inductive Resource : Type :=
| LoopDevice (h : LoopDev.LoopHandle)
| MountPoint (path : string)
| EmulationRegistration (interpreter : string)
| OpenFileDescriptor (fd : nat).

Record ResourceHandle : Type := {
  rh_resource : Resource;
  rh_seq : N
}.

Inductive Status : Type :=
| Pending
| Succeeded
| Failed (reason : BuildError).

(** Modelled from the spec: the build session.  The live handles are
    kept as a stack, the most recently acquired first. *)
Record BuildSession : Type := {
  backing_file : string;
  plan : ImagePlan;
  live : list ResourceHandle;
  next_seq : N;
  status : Status
}.

(** What the pipeline asks of the host: resources to acquire, and work
    that holds nothing once it returns. *)
Inductive MountSource : Type :=
| FromDevice (device : nat)
| Pseudo (kind : string)
| BindFrom (path : string).

Inductive Request : Type :=
| OpenFile (path : string)
| AttachLoop (file : string) (offset size : N)
| Mount (source : MountSource) (target fs : string)
| RegisterInterpreter (interpreter : string).

Inductive SeedSource : Type :=
| ArchiveExtract (path : string)
| BaseBootstrap (distribution : string).

Inductive Work : Type :=
| WriteTable (path : string) (p : ImagePlan)
| Format (device : nat) (fs : FsType)
| Populate (mount_path : string) (seed : SeedSource)
| EnterChroot (root : string)
| RunCommand (command : string) (args : list string)
| LeaveChroot.

Inductive Outcome : Type :=
| Done
| Exit (es : Chroot.ExitStatus).

(** Modelled from the spec: the components as the pipeline and the
    Teardown Coordinator call them (their code is not among the sources),
    the "narrow capability interface" of section 9: acquiring a resource,
    doing work that holds nothing once it returns, and the type-specific
    release operation of a resource, which says whether the resource was
    released. *)
Class ResourceManager (M : Type) : Type := {
  rm_acquire : Request -> M -> (BuildError + Resource) * M;
  rm_perform : Work -> M -> (BuildError + Outcome) * M;
  rm_release : Resource -> M -> bool * M
}.

(** A pipeline: steps in sequence, each of which may use the results of
    the steps before it. *)
Inductive Prog (A : Type) : Type :=
| Ret (a : A)
| Acquire (r : Request) (k : Resource -> Prog A)
| Perform (w : Work) (k : Outcome -> Prog A).
Arguments Ret {A} a.
Arguments Acquire {A} r k.
Arguments Perform {A} w k.

Fixpoint bind {A B} (p : Prog A) (f : A -> Prog B) : Prog B :=
  match p with
  | Ret a => f a
  | Acquire r k => Acquire r (fun x => bind (k x) f)
  | Perform w k => Perform w (fun x => bind (k x) f)
  end.

#[global] Instance Prog_ret : MRet Prog := fun A a => Ret a.
#[global] Instance Prog_bind : MBind Prog := fun A B f p => bind p f.

Definition acquire (r : Request) : Prog Resource := Acquire r Ret.
Definition perform (w : Work) : Prog Outcome := Perform w Ret.

(** A call as a manager receives it, with what it answered. *)
Inductive HostCall : Type :=
| CallAcquire (r : Request) (result : BuildError + Resource)
| CallPerform (w : Work) (result : BuildError + Outcome)
| CallRelease (res : Resource) (ok : bool).

(** The resources a manager handed out, the resources it was asked to
    release, and those of the latter it did not release, each in the order
    of the calls. *)
Definition handed_out (t : list HostCall) : list Resource :=
  omap (fun c => match c with CallAcquire _ (inr res) => Some res | _ => None end) t.

Definition release_calls (t : list HostCall) : list Resource :=
  omap (fun c => match c with CallRelease res _ => Some res | _ => None end) t.

Definition failed_releases (t : list HostCall) : list Resource :=
  omap (fun c => match c with CallRelease res false => Some res | _ => None end) t.

Definition is_release_call (c : HostCall) : Prop :=
  exists res ok, c = CallRelease res ok.

(** Any manager together with the list of the calls it has received,
    oldest first: every call is passed on unchanged and written down with
    its answer. *)
Definition Traced (M : Type) : Type := (M * list HostCall)%type.

#[global] Instance Traced_manager {M : Type} `{ResourceManager M}
  : ResourceManager (Traced M) :=
  {| rm_acquire := fun r mt =>
       let '(res, m') := rm_acquire r (fst mt) in
       (res, (m', (snd mt ++ [CallAcquire r res])%list));
     rm_perform := fun w mt =>
       let '(res, m') := rm_perform w (fst mt) in
       (res, (m', (snd mt ++ [CallPerform w res])%list));
     rm_release := fun x mt =>
       let '(ok, m') := rm_release x (fst mt) in
       (ok, (m', (snd mt ++ [CallRelease x ok])%list)) |}.

Section Driver.
Context {M : Type} `{ResourceManager M}.

Record Run : Type := {
  sess : BuildSession;
  mgr : M
}.

(** A session as created when a build begins. *)
Definition start (backing : string) (p : ImagePlan) (m : M) : Run :=
  {| sess := {| backing_file := backing; plan := p; live := [];
                next_seq := 0; status := Pending |};
     mgr := m |}.

(** Modelled from the spec: a successful acquisition pushes its handle
    onto the live list before anything else happens (section 4.3). *)
Definition push (res : Resource) (s : BuildSession) : BuildSession :=
  {| backing_file := backing_file s; plan := plan s;
     live := {| rh_resource := res; rh_seq := next_seq s |} :: live s;
     next_seq := (next_seq s + 1)%N; status := status s |}.

(** Running a pipeline stops at the first step that fails. *)
Fixpoint exec {A} (p : Prog A) (st : Run) : (BuildError + A) * Run :=
  match p with
  | Ret a => (inr a, st)
  | Acquire r k =>
      match rm_acquire r (mgr st) with
      | (inr res, m') => exec (k res) {| sess := push res (sess st); mgr := m' |}
      | (inl e, m') => (inl e, {| sess := sess st; mgr := m' |})
      end
  | Perform w k =>
      match rm_perform w (mgr st) with
      | (inr o, m') => exec (k o) {| sess := sess st; mgr := m' |}
      | (inl e, m') => (inl e, {| sess := sess st; mgr := m' |})
      end
  end.

(** Each handle of the list gets its release operation called, from the
    head of the list down; a release that fails does not stop the others,
    and its handle is kept for the report. *)
Fixpoint release_all (hs : list ResourceHandle) (m : M)
  : list ResourceHandle * M :=
  match hs with
  | [] => ([], m)
  | h :: rest =>
      let '(ok, m1) := rm_release (rh_resource h) m in
      let '(failed, m2) := release_all rest m1 in
      (if ok then failed else h :: failed, m2)
  end.

Definition set_session (lv : list ResourceHandle) (s : Status) (b : BuildSession)
  : BuildSession :=
  {| backing_file := backing_file b; plan := plan b; live := lv;
     next_seq := next_seq b; status := s |}.

(** Modelled from the spec: [unwind(BuildSession)] of the Teardown
    Coordinator (section 4.8; its code is missing) pops the live handles
    from the most recent one down, releases each with its release
    operation, goes on after a release that fails, and reports the
    handles it could not release. *)
Definition unwind (st : Run) : list ResourceHandle * Run :=
  let '(failed, m') := release_all (live (sess st)) (mgr st) in
  (failed, {| sess := set_session [] (status (sess st)) (sess st); mgr := m' |}).

(** Modelled from the spec: the top-level driver (sections 2 and 7; its
    code is missing).  The pipeline runs on a fresh session; [unwind] is
    invoked on every exit path; only then is the outcome handed to the
    caller, together with the handles that could not be released. *)
Definition build {A} (p : Prog A) (backing : string) (pl : ImagePlan) (m : M)
  : (BuildError + A) * list ResourceHandle * Run :=
  let '(r, st1) := exec p (start backing pl m) in
  let '(failed, st2) := unwind st1 in
  let s := match r with inr _ => Succeeded | inl e => Failed e end in
  (r, failed, {| sess := set_session (live (sess st2)) s (sess st2); mgr := mgr st2 |}).

End Driver.
Arguments Run M : clear implicits.

(** A run against a traced manager, seen as a run against the manager
    itself. *)
Definition erase {M : Type} (st : Run (Traced M)) : Run M :=
  {| sess := sess st; mgr := fst (mgr st) |}.

Definition trace {M : Type} (st : Run (Traced M)) : list HostCall :=
  snd (mgr st).

(** *** The pipeline of section 2 *)

Definition device_of (r : Resource) : nat :=
  match r with
  | LoopDevice h => LoopDev.lh_dev h
  | _ => 0
  end.

Definition fs_name (fs : FsType) : string :=
  match fs with
  | Fat32 => "vfat"
  | Ext4 => "ext4"
  end.

Fixpoint attach_all (file : string) (ps : list PartitionSpec)
  : Prog (list (PartitionSpec * Resource)) :=
  match ps with
  | [] => Ret []
  | p :: rest =>
      dev ← acquire (AttachLoop file (ps_offset p) (ps_size p));
      devs ← attach_all file rest;
      Ret ((p, dev) :: devs)
  end.

Fixpoint format_all (devs : list (PartitionSpec * Resource)) : Prog unit :=
  match devs with
  | [] => Ret tt
  | (p, dev) :: rest =>
      _ ← perform (Format (device_of dev) (ps_fs p));
      format_all rest
  end.

Fixpoint mount_all (mounts : list (MountSource * string * string)) : Prog unit :=
  match mounts with
  | [] => Ret tt
  | (src, target, fs) :: rest =>
      _ ← acquire (Mount src target fs);
      mount_all rest
  end.

Definition is_root (pd : PartitionSpec * Resource) : bool :=
  String.eqb (ps_mount (fst pd)) "/".

(** The mounts of the tree, parents before children: the root
    filesystem, the other partitions, then the pseudo-filesystems. *)
Definition mount_tree (root : string) (devs : list (PartitionSpec * Resource))
  : list (MountSource * string * string) :=
  map (fun pd => (FromDevice (device_of (snd pd)), root, fs_name (ps_fs (fst pd))))
      (List.filter is_root devs)
  ++ map (fun pd => (FromDevice (device_of (snd pd)),
                     String.append root (ps_mount (fst pd)),
                     fs_name (ps_fs (fst pd))))
         (List.filter (fun pd => negb (is_root pd)) devs)
  ++ [ (Pseudo "proc", String.append root "/proc", "proc");
       (Pseudo "sysfs", String.append root "/sys", "sysfs");
       (BindFrom "/dev", String.append root "/dev", "none") ].

Fixpoint run_commands (cmds : list (string * list string))
  : Prog (list Chroot.ExitStatus) :=
  match cmds with
  | [] => Ret []
  | (c, a) :: rest =>
      o ← perform (RunCommand c a);
      sts ← run_commands rest;
      Ret (match o with Exit es => es :: sts | Done => sts end)
  end.

(** Modelled from the spec: the control flow of section 2, from the
    allocator to the chroot session; the teardown is the driver's. *)
Definition pipeline (backing : string) (pl : ImagePlan) (root : string)
  (seed : SeedSource) (interpreter : string) (cmds : list (string * list string))
  : Prog (list Chroot.ExitStatus) :=
  _ ← acquire (OpenFile backing);
  _ ← perform (WriteTable backing pl);
  devs ← attach_all backing (partitions pl);
  _ ← format_all devs;
  _ ← mount_all (mount_tree root devs);
  _ ← perform (Populate root seed);
  _ ← acquire (RegisterInterpreter interpreter);
  _ ← perform (EnterChroot root);
  sts ← run_commands cmds;
  _ ← perform LeaveChroot;
  Ret sts.

(** *** A stand-in host *)

(** A host for trying the driver out: a pool of loop devices, the
    mounted paths, the paths that are busy for a plain unmount, a count of
    interpreter registrations, the open file descriptors. *)
Record FakeHost : Type := {
  fh_pool : LoopDev.Pool;
  fh_mounts : list string;
  fh_busy : list string;
  fh_registrations : nat;
  fh_open : list nat
}.

Definition set_pool (pool : LoopDev.Pool) (h : FakeHost) : FakeHost :=
  {| fh_pool := pool; fh_mounts := fh_mounts h; fh_busy := fh_busy h;
     fh_registrations := fh_registrations h; fh_open := fh_open h |}.

Definition set_mounts (mounts : list string) (h : FakeHost) : FakeHost :=
  {| fh_pool := fh_pool h; fh_mounts := mounts; fh_busy := fh_busy h;
     fh_registrations := fh_registrations h; fh_open := fh_open h |}.

Definition set_registrations (n : nat) (h : FakeHost) : FakeHost :=
  {| fh_pool := fh_pool h; fh_mounts := fh_mounts h; fh_busy := fh_busy h;
     fh_registrations := n; fh_open := fh_open h |}.

Definition set_open (fds : list nat) (h : FakeHost) : FakeHost :=
  {| fh_pool := fh_pool h; fh_mounts := fh_mounts h; fh_busy := fh_busy h;
     fh_registrations := fh_registrations h; fh_open := fds |}.

Definition fake_acquire (r : Request) (h : FakeHost) : (BuildError + Resource) * FakeHost :=
  match r with
  | OpenFile _ =>
      let fd := (3 + length (fh_open h))%nat in
      (inr (OpenFileDescriptor fd), set_open (fd :: fh_open h) h)
  | AttachLoop file offset size =>
      match LoopDev.attach file offset size (fh_pool h) with
      | inl e => (inl (ELoop e), h)
      | inr (lh, pool') => (inr (LoopDevice lh), set_pool pool' h)
      end
  | Mount _ target _ => (inr (MountPoint target), set_mounts (target :: fh_mounts h) h)
  | RegisterInterpreter i =>
      (inr (EmulationRegistration i), set_registrations (S (fh_registrations h)) h)
  end.

Definition fake_perform (w : Work) (h : FakeHost) : (BuildError + Outcome) * FakeHost :=
  match w with
  | RunCommand c a => (inr (Exit (Chroot.sample_program "/" c a)), h)
  | _ => (inr Done, h)
  end.

Inductive UmountResult : Type := Unmounted | UmountBusy | UmountError.

Definition fake_umount (path : string) (lazy : bool) (h : FakeHost)
  : UmountResult * FakeHost :=
  if decide (path ∈ fh_mounts h)
  then if negb lazy && bool_decide (path ∈ fh_busy h)
       then (UmountBusy, h)
       else (Unmounted,
             set_mounts (List.filter (fun q => negb (String.eqb q path)) (fh_mounts h)) h)
  else (UmountError, h).

(** Modelled from the spec: the release operation of a mount point
    (section 4.5): one unmount, retried once with the lazy or forced
    fallback when the mount point is busy. *)
Definition unmount {K : Type} (umount : string -> bool -> K -> UmountResult * K)
  (path : string) (k : K) : bool * K :=
  match umount path false k with
  | (Unmounted, k') => (true, k')
  | (UmountError, k') => (false, k')
  | (UmountBusy, k') =>
      match umount path true k' with
      | (Unmounted, k'') => (true, k'')
      | (_, k'') => (false, k'')
      end
  end.

Definition fake_release (r : Resource) (h : FakeHost) : bool * FakeHost :=
  match r with
  | LoopDevice lh =>
      match LoopDev.detach lh (fh_pool h) with
      | inr pool' => (true, set_pool pool' h)
      | inl _ => (false, h)
      end
  | MountPoint path => unmount fake_umount path h
  | EmulationRegistration _ => (true, set_registrations (pred (fh_registrations h)) h)
  | OpenFileDescriptor fd =>
      (true, set_open (List.filter (fun q => negb (Nat.eqb q fd)) (fh_open h)) h)
  end.

#[global] Instance FakeHost_manager : ResourceManager FakeHost :=
  {| rm_acquire := fake_acquire; rm_perform := fake_perform;
     rm_release := fake_release |}.

(** A host with the given number of loop devices, on which the root of
    the chroot is busy for a plain unmount. *)
Definition fake_host (loop_devices : nat) : FakeHost :=
  {| fh_pool := {| LoopDev.pool_size := loop_devices; LoopDev.bound := ∅ |};
     fh_mounts := []; fh_busy := ["/mnt/pi"]; fh_registrations := 0; fh_open := [] |}.

Definition scenario_pipeline : Prog (list Chroot.ExitStatus) :=
  pipeline "pi.img" scenario_plan "/mnt/pi" (ArchiveExtract "rootfs.tar")
           "qemu-arm" [("true", [])].

(** The session of the scenario pipeline of section 8 as it stands
    before teardown, on a host with loop devices to spare. *)
Definition scenario_before_unwind : Run (Traced FakeHost) :=
  snd (exec scenario_pipeline (start "pi.img" scenario_plan (fake_host 8, []))).

End Teardown.

(* ===================================================================== *)
(** * Part II: theorems *)
(* ===================================================================== *)

Section SetupPyFacts.
Import SetupPy.

(** An expression without names has the same value under any bindings. *)
Lemma eval_literal env1 env2 :
  forall e, literal e = true -> eval env1 e = eval env2 e.
Proof.
  fix IH 1. intros [s|x|es|es] H; simpl in *.
  - reflexivity.
  - discriminate.
  - f_equal. induction es as [|e' es IHes]; [reflexivity|].
    apply andb_prop in H as [H1 H2]. rewrite (IH e' H1), (IHes H2). reflexivity.
  - f_equal. induction es as [|e' es IHes]; [reflexivity|].
    apply andb_prop in H as [H1 H2]. rewrite (IH e' H1), (IHes H2). reflexivity.
Qed.

Lemma eval_kwargs_literal env1 env2 kws :
  forallb (fun kw => literal (snd kw)) kws = true ->
  eval_kwargs env1 kws = eval_kwargs env2 kws.
Proof.
  induction kws as [|[k e] rest IH]; simpl; [reflexivity|].
  intros H. apply andb_prop in H as [H1 H2].
  rewrite (eval_literal env1 env2 e H1), (IH H2). reflexivity.
Qed.

Lemma setup_kwargs_literal :
  forallb (fun kw => literal (snd kw)) setup_kwargs = true.
Proof. reflexivity. Qed.

Lemma setup_py_value env : setup_py env = Some pimage_metadata.
Proof.
  unfold setup_py.
  rewrite (eval_kwargs_literal env ∅ setup_kwargs setup_kwargs_literal).
  vm_compute. reflexivity.
Qed.

(** C8.  Whatever the bindings it runs under, the packaging configuration
    declares exactly one script, the file [src/pimage]. *)
Theorem setup_scripts env :
  md_scripts <$> setup_py env = Some ["src/pimage"] /\
  length <$> (md_scripts <$> setup_py env) = Some 1%nat.
Proof. rewrite setup_py_value. split; reflexivity. Qed.

(** C9.  The packaging configuration has exactly one data-file entry,
    which installs the single file [files/qemu/qemu-arm] into
    [share/pimage/qemu]; nothing else is installed as data. *)
Theorem setup_data_files env :
  md_data_files <$> setup_py env =
    Some [("share/pimage/qemu", ["files/qemu/qemu-arm"])] /\
  installed_data <$> setup_py env =
    Some [("share/pimage/qemu", "files/qemu/qemu-arm")].
Proof. rewrite setup_py_value. split; reflexivity. Qed.

(** C10.  Every argument of the [setup] call is a literal, so two runs
    under any two sets of bindings evaluate the arguments to the same
    values and produce the same metadata, namely the one written in the
    file. *)
Theorem setup_deterministic env1 env2 :
  forallb (fun kw => literal (snd kw)) setup_kwargs = true /\
  eval_kwargs env1 setup_kwargs = eval_kwargs env2 setup_kwargs /\
  setup_py env1 = setup_py env2 /\
  setup_py env1 = Some pimage_metadata.
Proof.
  split; [exact setup_kwargs_literal|].
  split; [apply eval_kwargs_literal, setup_kwargs_literal|].
  rewrite !setup_py_value. split; reflexivity.
Qed.

End SetupPyFacts.

Section SetupModuleFacts.
Import SetupPy SetupModule.

(** Running the file where [distutils.core] provides [setup]: whatever
    the globals held before (a previous meaning of the name [setup]
    included), the import rebinds the name, no keyword is repeated, and
    the module makes exactly one call, to [distutils.core.setup], with the
    seven keywords in the order written; these are the values from which
    [setup] builds the metadata written in the file. *)
Theorem setup_module_calls_setup importable g ns :
  importable !! "distutils.core" = Some ns ->
  ns !! "setup" = Some (OFunc "distutils.core" "setup") ->
  exists kws,
    run_module importable g setup_module =
      (None,
       {| globals := <["setup" := OFunc "distutils.core" "setup"]> g;
          calls := [ {| call_module := "distutils.core"; call_name := "setup";
                        call_kwargs := kws |} ] |}) /\
    map fst kws = ["name"; "version"; "description"; "author"; "author_email";
                   "scripts"; "data_files"] /\
    setup kws = Some pimage_metadata.
Proof.
  intros Hm Hs.
  destruct (eval_kwargs ∅ setup_kwargs) as [kws|] eqn:E; [|vm_compute in E; discriminate].
  exists kws. split; [|split].
  - unfold run_module, setup_module.
    replace (forallb keywords_distinct
               [SFromImport "distutils.core" "setup"; SCall "setup" setup_kwargs])
      with true by (vm_compute; reflexivity).
    cbn [exec_stmts exec_stmt globals calls]. rewrite Hm, Hs.
    cbn [globals calls]. rewrite lookup_insert_eq.
    rewrite (eval_kwargs_literal _ ∅ setup_kwargs setup_kwargs_literal), E.
    reflexivity.
  - vm_compute in E. injection E as <-. reflexivity.
  - vm_compute in E. injection E as <-. vm_compute. reflexivity.
Qed.

Lemma setup_module_calls_setup_witness :
  with_distutils !! "distutils.core" = Some {[ "setup" := OFunc "distutils.core" "setup" ]} /\
  exists kws,
    fst (run_module with_distutils shadowed_globals setup_module) = None /\
    map call_kwargs (calls (snd (run_module with_distutils shadowed_globals setup_module)))
      = [kws] /\
    setup kws = Some pimage_metadata.
Proof.
  assert (Hm : with_distutils !! "distutils.core"
               = Some {[ "setup" := OFunc "distutils.core" "setup" ]})
    by (vm_compute; reflexivity).
  assert (Hs : ({[ "setup" := OFunc "distutils.core" "setup" ]} : gmap string pyobj)
                 !! "setup" = Some (OFunc "distutils.core" "setup"))
    by (vm_compute; reflexivity).
  split; [exact Hm|].
  destruct (setup_module_calls_setup with_distutils shadowed_globals _ Hm Hs)
    as (kws & Hrun & _ & Hsetup).
  exists kws. rewrite Hrun. split; [reflexivity|]. split; [reflexivity|exact Hsetup].
Defined.

Lemma distutils_core_prefixes :
  dotted_prefixes "distutils.core" = ["distutils"; "distutils.core"].
Proof. reflexivity. Qed.

(** Running the file where [setup] cannot be imported stops at the
    import, whatever the globals are: with [ModuleNotFoundError] naming
    [distutils] when that package is missing, naming [distutils.core] when
    the package is there but not the module, and with [ImportError] when
    the module is there but has no [setup]; in each case nothing has been
    called. *)
Theorem setup_module_import_failure importable g :
  (importable !! "distutils" = None -> importable !! "distutils.core" = None ->
   fst (run_module importable g setup_module)
     = Some (ModuleNotFoundError "distutils") /\
   calls (snd (run_module importable g setup_module)) = []) /\
  (is_Some (importable !! "distutils") -> importable !! "distutils.core" = None ->
   fst (run_module importable g setup_module)
     = Some (ModuleNotFoundError "distutils.core") /\
   calls (snd (run_module importable g setup_module)) = []) /\
  (forall ns,
     importable !! "distutils.core" = Some ns -> ns !! "setup" = None ->
     fst (run_module importable g setup_module)
       = Some (ImportError "distutils.core" "setup") /\
     calls (snd (run_module importable g setup_module)) = []).
Proof.
  assert (Hk : forallb keywords_distinct setup_module = true) by (vm_compute; reflexivity).
  unfold run_module. rewrite Hk. unfold setup_module.
  cbn [exec_stmts exec_stmt]. rewrite distutils_core_prefixes. cbn [first_missing].
  split; [|split].
  - intros Hp Hm. rewrite Hm, Hp. split; reflexivity.
  - intros [pk Hp] Hm. rewrite Hm, Hp. split; reflexivity.
  - intros ns Hm Hs. rewrite Hm, Hs. split; reflexivity.
Qed.

Lemma setup_module_import_failure_witness :
  (is_Some (without_core !! "distutils") /\ without_core !! "distutils.core" = None) /\
  fst (run_module without_core shadowed_globals setup_module)
    = Some (ModuleNotFoundError "distutils.core") /\
  calls (snd (run_module without_core shadowed_globals setup_module)) = [].
Proof.
  assert (Hp : is_Some (without_core !! "distutils")) by (vm_compute; eauto).
  assert (Hm : without_core !! "distutils.core" = None) by (vm_compute; reflexivity).
  split; [split; [exact Hp|exact Hm]|].
  exact (proj1 (proj2 (setup_module_import_failure without_core shadowed_globals)) Hp Hm).
Defined.

End SetupModuleFacts.

Section PlannerFacts.
Import Planner.
Local Open Scope N_scope.

Lemma align_up_ge a x : x <= align_up a x.
Proof.
  unfold align_up.
  pose proof (N.div_mod (x + N.pos a - 1) (N.pos a) ltac:(lia)) as E.
  pose proof (N.mod_lt (x + N.pos a - 1) (N.pos a) ltac:(lia)) as L.
  nia.
Qed.

Lemma align_up_mod a x : align_up a x mod N.pos a = 0.
Proof. unfold align_up. apply N.Div0.mod_mul. Qed.

(** What [layout] guarantees from a given cursor: every partition starts
    at or after the cursor on an aligned offset and ends within the total;
    each one ends before all later ones start; the sizes add up to no more
    than what was left. *)
Lemma layout_sound a total rs :
  forall c ps,
    c <= total ->
    layout a total c rs = Some ps ->
    Forall (fun p => c <= ps_offset p /\ aligned a p /\ ps_end p <= total) ps /\
    StronglySorted (fun p q => ps_end p <= ps_offset q) ps /\
    c + foldr N.add 0 (map ps_size ps) <= total.
Proof.
  induction rs as [|r rest IH]; intros c ps Hc; simpl.
  - intros [= <-]. simpl. repeat split; try constructor. lia.
  - set (start := align_up a c).
    set (size := match vr_size r with MinSize n => n | Remaining => total - start end).
    destruct (N.leb_spec (start + size) total) as [Hfit|]; [|discriminate].
    destruct (layout a total (start + size) rest) as [ps'|] eqn:E; [|discriminate].
    intros [= <-].
    destruct (IH _ _ Hfit E) as (Hall & Hsorted & Hsum).
    pose proof (align_up_ge a c) as Hge. fold start in Hge.
    split; [|split].
    + constructor.
      * unfold ps_end, aligned; simpl. split; [lia|]. split; [apply align_up_mod|lia].
      * eapply Forall_impl; [exact Hall|]. simpl. intros q (? & ? & ?). repeat split; auto. lia.
    + constructor; [exact Hsorted|].
      eapply Forall_impl; [exact Hall|]. unfold ps_end; simpl. intros q (? & _). lia.
    + simpl. lia.
Qed.

Lemma sorted_lookup {A} (R : A -> A -> Prop) (l : list A) :
  StronglySorted R l ->
  forall i j x y, (i < j)%nat -> l !! i = Some x -> l !! j = Some y -> R x y.
Proof.
  induction 1 as [|x0 l Hs IH Hall]; intros i j x y Hij Hi Hj.
  - rewrite lookup_nil in Hi. discriminate.
  - destruct j as [|j]; [lia|]. simpl in Hj.
    destruct i as [|i]; simpl in Hi.
    + injection Hi as <-. eapply Forall_lookup_1; eauto.
    + apply (IH i j x y); [lia|exact Hi|exact Hj].
Qed.

Lemma plan_image_inr a total rs plan :
  plan_image a total rs = inr plan ->
  total_bytes plan = total /\ layout a total 0 rs = Some (partitions plan).
Proof.
  unfold plan_image.
  destruct (total <? requested_total rs); [discriminate|].
  destruct (1 <? boot_count rs)%nat; [discriminate|].
  destruct (layout a total 0 rs) as [ps|]; [|discriminate].
  intros [= <-]. auto.
Qed.

(** C2.  Every plan the Partition Planner returns has pairwise
    non-overlapping partitions (an earlier partition ends at or before the
    start of any later one), every start offset is a multiple of the
    configured alignment, the partitions are in order of start offset, no
    partition's offset plus size exceeds the plan's total size, and the
    sizes together do not exceed it either. *)
Theorem planner_plan_invariant a total rs plan :
  plan_image a total rs = inr plan ->
  (forall i j p q, (i < j)%nat ->
     partitions plan !! i = Some p -> partitions plan !! j = Some q ->
     ps_offset p + ps_size p <= ps_offset q) /\
  (forall p, p ∈ partitions plan -> ps_offset p mod N.pos a = 0) /\
  (forall i j p q, (i < j)%nat ->
     partitions plan !! i = Some p -> partitions plan !! j = Some q ->
     ps_offset p <= ps_offset q) /\
  (forall p, p ∈ partitions plan -> ps_offset p + ps_size p <= total_bytes plan) /\
  foldr N.add 0 (map ps_size (partitions plan)) <= total_bytes plan.
Proof.
  intros H. apply plan_image_inr in H as [Ht Hl].
  apply layout_sound in Hl as (Hall & Hsorted & Hsum); [|lia].
  rewrite Ht. rewrite Forall_forall in Hall.
  assert (Hpair : forall i j p q, (i < j)%nat ->
     partitions plan !! i = Some p -> partitions plan !! j = Some q ->
     ps_offset p + ps_size p <= ps_offset q).
  { intros i j p q Hij Hi Hj.
    exact (sorted_lookup _ _ Hsorted i j p q Hij Hi Hj). }
  repeat split.
  - exact Hpair.
  - intros p Hp. apply (Hall p Hp).
  - intros i j p q Hij Hi Hj. specialize (Hpair i j p q Hij Hi Hj). lia.
  - intros p Hp. apply (Hall p Hp).
  - lia.
Qed.

(** The section 8 scenario is planned as expected, so the theorem above
    applies to it. *)
Lemma planner_plan_invariant_witness :
  plan_image 4096 (256 * MiB) scenario_requests = inr scenario_plan /\
  (forall p, p ∈ partitions scenario_plan -> ps_offset p + ps_size p <= total_bytes scenario_plan).
Proof.
  assert (E : plan_image 4096 (256 * MiB) scenario_requests = inr scenario_plan)
    by (vm_compute; reflexivity).
  split; [exact E|].
  apply (planner_plan_invariant 4096 (256 * MiB) scenario_requests scenario_plan E).
Defined.

End PlannerFacts.

Section LoopDevFacts.
Import LoopDev.

Lemma detach_total h p : exists p', detach h p = inr p'.
Proof.
  unfold detach. destruct (bound p !! lh_dev h) as [b|]; [|eauto].
  destruct (decide (b = lh_binding h)); eauto.
Qed.

(** A handle that is not attached is left alone by [detach]. *)
Lemma detach_not_attached h p : ~ attached h p -> detach h p = inr p.
Proof.
  unfold attached, detach. intros H.
  destruct (bound p !! lh_dev h) as [b|]; [|reflexivity].
  destruct (decide (b = lh_binding h)) as [->|]; [|reflexivity].
  contradiction H. reflexivity.
Qed.

(** After [detach] the handle is not attached. *)
Lemma detach_detaches h p p' : detach h p = inr p' -> ~ attached h p'.
Proof.
  unfold attached, detach.
  destruct (bound p !! lh_dev h) as [b|] eqn:E.
  - destruct (decide (b = lh_binding h)) as [->|Hne].
    + intros [= <-]. simpl. rewrite lookup_delete_eq. discriminate.
    + intros [= <-]. rewrite E. intros [= ->]. contradiction.
  - intros [= <-]. rewrite E. discriminate.
Qed.

(** C3.  For every pool and every handle, [detach] succeeds, and calling
    it again on the resulting pool succeeds too and returns that pool
    unchanged. *)
Theorem detach_twice_noop h p :
  exists p1, detach h p = inr p1 /\ detach h p1 = inr p1.
Proof.
  destruct (detach_total h p) as [p1 E]. exists p1. split; [exact E|].
  apply detach_not_attached. eapply detach_detaches. exact E.
Qed.

(** An attached handle is really unbound by [detach]. *)
Lemma detach_attached h p :
  attached h p ->
  exists p', detach h p = inr p' /\ bound p' !! lh_dev h = None.
Proof.
  unfold attached, detach. intros ->.
  destruct (decide (lh_binding h = lh_binding h)); [|contradiction].
  eexists. split; [reflexivity|]. apply lookup_delete_eq.
Qed.

End LoopDevFacts.

Section AllocatorFacts.
Import Planner Allocator.
Local Close Scope string_scope.
Local Open Scope N_scope.

(** *** Little-endian fields and readers *)

Lemma length_le_bytes n x : length (le_bytes n x) = n.
Proof. revert x; induction n as [|n IH]; intros x; simpl; [reflexivity|]. now rewrite IH. Qed.

Lemma le_value_le_bytes n x : le_value (le_bytes n x) = x mod 256 ^ N.of_nat n.
Proof.
  revert x; induction n as [|n IH]; intros x.
  - simpl. now rewrite N.mod_1_r.
  - cbn [le_bytes le_value]. rewrite IH.
    rewrite Nat2N.inj_succ, N.pow_succ_r'.
    rewrite N.Div0.mod_mul_r. reflexivity.
Qed.

Lemma le_value_le_bytes_small n x :
  x < 256 ^ N.of_nat n -> le_value (le_bytes n x) = x.
Proof. intros H. rewrite le_value_le_bytes. now apply N.mod_small. Qed.

Lemma take_bytes_app n (a b : list N) :
  length a = n -> take_bytes n (a ++ b) = Some (a, b).
Proof.
  intros <-. unfold take_bytes.
  destruct (Nat.ltb_spec (length (a ++ b)) (length a)) as [H|_].
  - rewrite length_app in H. lia.
  - now rewrite take_app_length, drop_app_length.
Qed.

Lemma take_le_app n x (b : list N) :
  x < 256 ^ N.of_nat n -> take_le n (le_bytes n x ++ b) = Some (x, b).
Proof.
  intros H. unfold take_le.
  rewrite take_bytes_app by apply length_le_bytes.
  now rewrite le_value_le_bytes_small.
Qed.

Lemma parse_slots_concat {A} size (decode : list N -> option (option A)) n slots oes rest :
  length slots = n ->
  Forall2 (fun s oe => length s = size /\ decode s = Some oe) slots oes ->
  parse_slots size decode n (concat slots ++ rest) = Some (omap id oes, rest).
Proof.
  intros <-.
  induction 1 as [|s oe slots oes [Hlen Hdec] _ IH]; [reflexivity|].
  cbn [length concat parse_slots]. rewrite <- app_assoc.
  rewrite (take_bytes_app size s _ Hlen), Hdec, IH.
  destruct oe; reflexivity.
Qed.

(** *** Sparse files *)


Lemma sf_write_Some off bs f :
  off + N.of_nat (length bs) <= sf_size f ->
  sf_write off bs f =
    Some {| sf_size := sf_size f; sf_data := put_bytes off bs (sf_data f) |}.
Proof.
  intros Hle. unfold sf_write.
  destruct (N.leb_spec (off + N.of_nat (length bs)) (sf_size f)); [reflexivity|lia].
Qed.




(** *** Master boot record *)

Lemma sectors_of_Some bytes n :
  sectors_of bytes = Some n -> n = bytes / sector_size /\ bytes = n * sector_size.
Proof.
  unfold sectors_of. destruct (N.eqb_spec (bytes mod sector_size) 0) as [E|]; [|discriminate].
  intros [= <-]. split; [reflexivity|].
  pose proof (N.div_mod bytes sector_size ltac:(discriminate)). lia.
Qed.

Lemma mbr_decode_raw_entry status type lba count :
  lba < 2 ^ 32 -> count < 2 ^ 32 ->
  length (mbr_raw_entry status type lba count) = 16%nat /\
  mbr_decode_raw (mbr_raw_entry status type lba count) =
    Some (if type =? 0 then None else Some (type, lba, count)).
Proof.
  intros Hl Hc. unfold mbr_raw_entry. split.
  - rewrite !length_app, !length_le_bytes. reflexivity.
  - unfold mbr_decode_raw.
    rewrite (app_assoc [status]), (take_bytes_app 4) by reflexivity.
    unfold take_le at 1. rewrite (take_bytes_app 1) by reflexivity.
    rewrite (take_bytes_app 3) by reflexivity.
    rewrite <- (app_nil_r (le_bytes 4 count)).
    rewrite !take_le_app by assumption.
    cbn [le_value]. rewrite N.mul_0_r, N.add_0_r.
    destruct (type =? 0); reflexivity.
Qed.

Lemma mbr_type_code_facts fs :
  (mbr_type_code fs =? 0) = false /\
  mbr_type_code fs <> mbr_protective_code /\
  mbr_fs_of_code (mbr_type_code fs) = Some fs.
Proof. destruct fs; repeat split; discriminate. Qed.

Lemma mbr_entry_decode p bs :
  mbr_entry p = Some bs ->
  length bs = 16%nat /\
  mbr_decode_raw bs = Some (Some (mbr_raw_of p)) /\
  mbr_entry_of_raw (mbr_raw_of p) = Some (entry_of p).
Proof.
  unfold mbr_entry.
  destruct (sectors_of (ps_offset p)) as [lba|] eqn:Eo; [|discriminate].
  destruct (sectors_of (ps_size p)) as [count|] eqn:Es; [|discriminate].
  apply sectors_of_Some in Eo as [-> Eo], Es as [-> Es].
  destruct (N.ltb_spec (ps_offset p / sector_size) (2 ^ 32)) as [Hl|]; [|discriminate].
  destruct (N.ltb_spec (ps_size p / sector_size) (2 ^ 32)) as [Hc|]; [|discriminate].
  intros [= <-].
  destruct (mbr_decode_raw_entry (if ps_boot p then 128 else 0)
              (mbr_type_code (ps_fs p)) _ _ Hl Hc) as [Hlen Hdec].
  destruct (mbr_type_code_facts (ps_fs p)) as (Hz & _ & Hfs).
  rewrite Hz in Hdec. split; [exact Hlen|]. split; [exact Hdec|].
  unfold mbr_entry_of_raw, mbr_raw_of, entry_of. rewrite Hfs, <- Eo, <- Es. reflexivity.
Qed.

Lemma length_concat_uniform (k : nat) (slots : list (list N)) :
  Forall (fun s => length s = k) slots -> length (concat slots) = (length slots * k)%nat.
Proof.
  induction 1 as [|s slots Hs _ IH]; [reflexivity|].
  cbn [concat length]. rewrite length_app, Hs, IH. lia.
Qed.

Lemma mbr_read_raw_sector slots oraws :
  length slots = 4%nat ->
  Forall2 (fun s oe => length s = 16%nat /\ mbr_decode_raw s = Some oe) slots oraws ->
  length (mbr_sector slots) = 512%nat /\
  mbr_read_raw (mbr_sector slots) = Some (omap id oraws).
Proof.
  intros H4 HF. unfold mbr_sector. split.
  - rewrite !length_app, length_replicate.
    rewrite (length_concat_uniform 16), H4; [reflexivity|].
    eapply Forall2_Forall_l; [exact HF|]. apply Forall_true. tauto.
  - unfold mbr_read_raw.
    rewrite (take_bytes_app 446) by apply length_replicate.
    rewrite (parse_slots_concat 16 mbr_decode_raw 4 slots oraws _ H4 HF).
    destruct (decide (mbr_signature = mbr_signature)); [reflexivity|contradiction].
Qed.

Lemma mbr_table_read ps sector :
  mbr_table ps = Some sector ->
  length sector = 512%nat /\
  mbr_read_raw sector = Some (map mbr_raw_of ps) /\
  mapM mbr_entry_of_raw (map mbr_raw_of ps) = Some (map entry_of ps).
Proof.
  unfold mbr_table.
  destruct (Nat.ltb_spec 4 (length ps)) as [|Hn]; [discriminate|].
  destruct (mapM mbr_entry ps) as [encs|] eqn:E; [|discriminate].
  intros [= <-]. apply mapM_Some in E.
  assert (Hlen : length encs = length ps) by (symmetry; eapply Forall2_length; eauto).
  destruct (mbr_read_raw_sector (encs ++ replicate (4 - length ps) mbr_unused)
              (map (fun p => Some (mbr_raw_of p)) ps ++ replicate (4 - length ps) None))
    as [Hl Hr].
  { rewrite length_app, length_replicate. lia. }
  { apply Forall2_app.
    - apply Forall2_fmap_r. apply Forall2_flip.
      eapply Forall2_impl; [exact E|]. cbn. intros p e He.
      apply mbr_entry_decode in He. tauto.
    - apply Forall2_replicate. split; reflexivity. }
  split; [exact Hl|]. split.
  - rewrite Hr. f_equal. rewrite omap_app.
    replace (omap id (replicate (4 - length ps) None)) with (@nil (N * N * N)).
    + rewrite app_nil_r. clear. induction ps; cbn; [reflexivity|]. now f_equal.
    + clear. induction (4 - length ps)%nat; [reflexivity|]. assumption.
  - apply mapM_Some, Forall2_fmap, Forall_Forall2_diag.
    eapply Forall2_Forall_l; [exact E|]. apply Forall_true.
    intros e p He. apply mbr_entry_decode in He. tauto.
Qed.

(** *** GUID partition table *)

Lemma length_gpt_name name : length (gpt_name name) = 72%nat.
Proof.
  unfold gpt_name.
  set (units := take 36 (map Ascii.N_of_ascii (String.list_ascii_of_string name))).
  assert (Hu : (length units <= 36)%nat) by (unfold units; rewrite length_take; lia).
  rewrite length_app, length_replicate.
  assert (E : length (flat_map (fun c : N => [c; 0]) units) = (2 * length units)%nat).
  { clear Hu. induction units as [|c l IH]; [reflexivity|]. cbn [flat_map length app]. lia. }
  lia.
Qed.

Lemma gpt_type_guid_facts fs :
  length (gpt_type_guid fs) = 16%nat /\
  gpt_type_guid fs <> replicate 16 0 /\
  gpt_fs_of_guid (gpt_type_guid fs) = Some fs.
Proof. destruct fs; (split; [reflexivity|split; [discriminate|reflexivity]]). Qed.

Lemma gpt_entry_decode slot p bs :
  gpt_entry slot p = Some bs ->
  length bs = gpt_entry_size /\ gpt_decode_entry bs = Some (Some (entry_of p)).
Proof.
  unfold gpt_entry.
  destruct (sectors_of (ps_offset p)) as [first|] eqn:Eo; [|discriminate].
  destruct (sectors_of (ps_size p)) as [count|] eqn:Es; [|discriminate].
  apply sectors_of_Some in Eo as [_ Eo], Es as [_ Es].
  destruct (N.ltb_spec 0 count) as [Hpos|]; [|discriminate].
  destruct (N.ltb_spec (first + count) (2 ^ 64)) as [Hfit|]; [|discriminate].
  cbn [andb]. intros H. apply (inj Some) in H. subst bs.
  destruct (gpt_type_guid_facts (ps_fs p)) as (Hlen & Hnz & Hfs).
  split.
  - rewrite !length_app, !length_le_bytes, length_gpt_name, Hlen. reflexivity.
  - unfold gpt_decode_entry.
    rewrite (take_bytes_app 16) by exact Hlen.
    rewrite (take_bytes_app 16) by apply length_le_bytes.
    rewrite (take_le_app 8 first) by (change (256 ^ N.of_nat 8) with (2 ^ 64); lia).
    rewrite (take_le_app 8 (first + count - 1))
      by (change (256 ^ N.of_nat 8) with (2 ^ 64); lia).
    destruct (decide (gpt_type_guid (ps_fs p) = replicate 16 0)) as [Hz|_];
      [contradiction|].
    rewrite Hfs. unfold entry_of. do 3 f_equal.
    + symmetry; exact Eo.
    + rewrite Es. f_equal. lia.
Qed.

Lemma gpt_entries_decode ps : forall slot encs,
  gpt_entries_from slot ps = Some encs ->
  Forall2 (fun e p => length e = gpt_entry_size /\
                      gpt_decode_entry e = Some (Some (entry_of p))) encs ps.
Proof.
  induction ps as [|p ps IH]; intros slot encs; cbn [gpt_entries_from].
  - intros [= <-]. constructor.
  - destruct (gpt_entry slot p) as [e|] eqn:E; [|discriminate].
    destruct (gpt_entries_from (S slot) ps) as [es|] eqn:Es; [|discriminate].
    intros [= <-]. constructor; [eapply gpt_entry_decode; eauto|eauto].
Qed.

Lemma gpt_array_parse encs ps :
  Forall2 (fun e p => length e = gpt_entry_size /\
                      gpt_decode_entry e = Some (Some (entry_of p))) encs ps ->
  (length encs <= gpt_entry_count)%nat ->
  let array := concat (encs ++ replicate (gpt_entry_count - length encs) gpt_unused) in
  length array = (gpt_entry_count * gpt_entry_size)%nat /\
  parse_slots gpt_entry_size gpt_decode_entry gpt_entry_count array =
    Some (map entry_of ps, []).
Proof.
  intros HF Hn array. subst array.
  set (pad := replicate (gpt_entry_count - length encs) gpt_unused).
  assert (Hslots : length (encs ++ pad) = gpt_entry_count).
  { unfold pad. rewrite length_app, length_replicate. lia. }
  assert (HF' : Forall2 (fun s oe => length s = gpt_entry_size /\ gpt_decode_entry s = Some oe)
                  (encs ++ pad)
                  (map (fun p => Some (entry_of p)) ps
                   ++ replicate (gpt_entry_count - length encs) None)).
  { apply Forall2_app.
    - apply Forall2_fmap_r. exact HF.
    - apply Forall2_replicate. split; reflexivity. }
  split.
  - rewrite (length_concat_uniform gpt_entry_size), Hslots; [reflexivity|].
    eapply Forall2_Forall_l; [exact HF'|]. apply Forall_true. tauto.
  - rewrite <- (app_nil_r (concat (encs ++ pad))).
    rewrite (parse_slots_concat _ _ _ _ _ _ Hslots HF').
    f_equal. f_equal. rewrite omap_app.
    replace (omap id (replicate (gpt_entry_count - length encs) None))
      with (@nil TableEntry).
    + rewrite app_nil_r. clear. induction ps; cbn; [reflexivity|]. now f_equal.
    + clear. induction (gpt_entry_count - length encs)%nat; [reflexivity|]. assumption.
Qed.

Lemma length_gpt_header current backup first_usable last_usable entries_lba entries_crc :
  length (gpt_header current backup first_usable last_usable entries_lba entries_crc)
    = 92%nat.
Proof.
  unfold gpt_header, gpt_header_back, gpt_header_middle, gpt_header_front, gpt_disk_guid.
  rewrite !length_app, !length_le_bytes. reflexivity.
Qed.


Lemma protective_mbr_read sectors :
  length (gpt_protective_mbr sectors) = 512%nat /\
  mbr_read_raw (gpt_protective_mbr sectors) =
    Some [(mbr_protective_code, 1, N.min (sectors - 1) (2 ^ 32 - 1))].
Proof.
  unfold gpt_protective_mbr.
  apply (mbr_read_raw_sector _
           ([Some (mbr_protective_code, 1, N.min (sectors - 1) (2 ^ 32 - 1))]
            ++ replicate 3 None)); [reflexivity|].
  apply Forall2_app.
  - constructor; [|constructor].
    apply (mbr_decode_raw_entry 0 mbr_protective_code); [reflexivity|].
    apply N.min_lt_iff. right. reflexivity.
  - apply Forall2_replicate. split; reflexivity.
Qed.


(** *** The table of an allocated image *)




(** The allocator does produce an image for the plans the chosen table
    can hold. *)
Lemma allocate_mbr_succeeds fs_limit plan :
  total_bytes plan <= fs_limit ->
  512 <= total_bytes plan ->
  (length (partitions plan) <= 4)%nat ->
  forallb mbr_representable (partitions plan) = true ->
  exists image, allocate MBR fs_limit plan = inr image.
Proof.
  intros Hlim Htot Hn Hrep. unfold allocate.
  destruct (N.ltb_spec fs_limit (total_bytes plan)) as [|_]; [lia|].
  cbn [write_table]. unfold write_mbr.
  destruct (mbr_table (partitions plan)) as [sector|] eqn:E.
  - destruct (mbr_table_read _ _ E) as (Hlen & _).
    unfold sf_write. rewrite Hlen. cbn [sf_create sf_size].
    destruct (N.leb_spec (0 + N.of_nat 512) (total_bytes plan)) as [_|Hbad]; [eauto|].
    change (N.of_nat 512) with 512 in Hbad. lia.
  - exfalso. unfold mbr_table in E.
    destruct (Nat.ltb_spec 4 (length (partitions plan))); [lia|].
    destruct (mapM mbr_entry (partitions plan)) eqn:Em; [discriminate|].
    apply mapM_None in Em. apply Exists_exists in Em as (q & Hq & Hnone).
    rewrite forallb_forall in Hrep. specialize (Hrep q). 
    rewrite <- list_elem_of_In in Hrep. specialize (Hrep Hq).
    unfold mbr_representable in Hrep. unfold mbr_entry, sectors_of in Hnone.
    repeat (apply andb_prop in Hrep as [Hrep ?]).
    repeat match goal with Hx : _ = true |- _ => rewrite Hx in Hnone end.
    discriminate.
Qed.

Lemma gpt_entries_from_Some ps : forall slot,
  forallb gpt_representable ps = true -> is_Some (gpt_entries_from slot ps).
Proof.
  induction ps as [|q ps IH]; intros slot; cbn [forallb gpt_entries_from]; [eauto|].
  intros Hrep. apply andb_prop in Hrep as [Hq Hps].
  destruct (IH (S slot) Hps) as [es ->].
  unfold gpt_representable in Hq. unfold gpt_entry, sectors_of.
  repeat (apply andb_prop in Hq as [Hq ?]).
  repeat match goal with Hx : _ = true |- _ => rewrite Hx end.
  eauto.
Qed.

Lemma allocate_gpt_succeeds fs_limit plan :
  total_bytes plan <= fs_limit ->
  total_bytes plan mod sector_size = 0 ->
  68 * sector_size <= total_bytes plan < 2 ^ 64 * sector_size ->
  (length (partitions plan) <= gpt_entry_count)%nat ->
  forallb gpt_representable (partitions plan) = true ->
  exists image, allocate GPT fs_limit plan = inr image.
Proof.
  intros Hlim Hmod [Hlo Hhi] Hn Hrep. unfold allocate.
  destruct (N.ltb_spec fs_limit (total_bytes plan)) as [|_]; [lia|].
  cbn [write_table]. unfold write_gpt. cbn [sf_create sf_size].
  unfold sectors_of. rewrite Hmod. cbn [N.eqb].
  set (sectors := total_bytes plan / sector_size).
  assert (Hs : total_bytes plan = sectors * sector_size).
  { pose proof (N.div_mod (total_bytes plan) sector_size ltac:(discriminate)).
    subst sectors. lia. }
  clearbody sectors.
  destruct (gpt_entries_from_Some _ 0 Hrep) as [encs Ee].
  pose proof (gpt_entries_decode _ _ _ Ee) as HF.
  assert (Hlen : length encs = length (partitions plan)) by (eapply Forall2_length; eauto).
  rewrite Ee.
  destruct (Nat.leb_spec (length encs) gpt_entry_count) as [Hn'|]; [|lia].
  destruct (N.leb_spec 68 sectors) as [H68|]; [|unfold sector_size in *; lia].
  destruct (N.ltb_spec sectors (2 ^ 64)) as [H64|]; [|unfold sector_size in *; lia].
  cbn [andb].
  destruct (gpt_array_parse encs (partitions plan) HF Hn') as [HlenA _].
  set (array := concat (encs ++ replicate (gpt_entry_count - length encs) gpt_unused)) in *.
  destruct (protective_mbr_read sectors) as [HlenP _].
  assert (NA : N.of_nat (length array) = 16384) by (rewrite HlenA; reflexivity).
  assert (NP : N.of_nat (length (gpt_protective_mbr sectors)) = 512)
    by (rewrite HlenP; reflexivity).
  assert (NH : forall a b c d e g, N.of_nat (length (gpt_header a b c d e g)) = 92)
    by (intros; rewrite length_gpt_header; reflexivity).
  unfold sf_create.
  rewrite (sf_write_Some 0)
    by (cbn [sf_size]; rewrite NP; unfold sector_size in *; lia).
  cbn [mbind option_bind].
  rewrite (sf_write_Some sector_size)
    by (cbn [sf_size]; rewrite NH; unfold sector_size in *; lia).
  cbn [mbind option_bind].
  rewrite (sf_write_Some (2 * sector_size))
    by (cbn [sf_size]; rewrite NA; unfold sector_size in *; lia).
  cbn [mbind option_bind].
  rewrite (sf_write_Some ((sectors - 33) * sector_size))
    by (cbn [sf_size]; rewrite NA; unfold sector_size in *; lia).
  cbn [mbind option_bind].
  rewrite (sf_write_Some ((sectors - 1) * sector_size))
    by (cbn [sf_size]; rewrite NH; unfold sector_size in *; lia).
  eauto.
Qed.


End AllocatorFacts.

Section TeardownFacts.
Import Teardown.
Local Close Scope string_scope.
Context {M : Type} `{ResourceManager M}.

(** *** What a traced manager writes down *)

Lemma traced_acquire r (mt : Traced M) :
  rm_acquire r mt =
    (fst (rm_acquire r (fst mt)),
     (snd (rm_acquire r (fst mt)),
      snd mt ++ [CallAcquire r (fst (rm_acquire r (fst mt)))])).
Proof. cbn. destruct (rm_acquire r (fst mt)); reflexivity. Qed.

Lemma traced_perform w (mt : Traced M) :
  rm_perform w mt =
    (fst (rm_perform w (fst mt)),
     (snd (rm_perform w (fst mt)),
      snd mt ++ [CallPerform w (fst (rm_perform w (fst mt)))])).
Proof. cbn. destruct (rm_perform w (fst mt)); reflexivity. Qed.

Lemma traced_release x (mt : Traced M) :
  rm_release x mt =
    (fst (rm_release x (fst mt)),
     (snd (rm_release x (fst mt)),
      snd mt ++ [CallRelease x (fst (rm_release x (fst mt)))])).
Proof. cbn. destruct (rm_release x (fst mt)); reflexivity. Qed.

Lemma handed_out_app t1 t2 : handed_out (t1 ++ t2) = handed_out t1 ++ handed_out t2.
Proof. apply omap_app. Qed.

Lemma release_calls_app t1 t2 :
  release_calls (t1 ++ t2) = release_calls t1 ++ release_calls t2.
Proof. apply omap_app. Qed.

(** Tracing changes nothing: a run against a traced manager is, once the
    list of calls is set aside, the run against the manager itself. *)
Lemma exec_erase {A} (p : Prog A) :
  forall (st : Run (Traced M)) r st',
    exec p st = (r, st') -> exec p (erase st) = (r, erase st').
Proof.
  induction p as [a|r k IH|w k IH]; intros st res st'; cbn [exec].
  - intros [= <- <-]. reflexivity.
  - rewrite traced_acquire. unfold erase at 1. cbn [mgr sess].
    destruct (rm_acquire r (fst (mgr st))) as [[e|x] m']; cbn [fst snd].
    + intros [= <- <-]. reflexivity.
    + intros E. apply IH in E. exact E.
  - rewrite traced_perform. unfold erase at 1. cbn [mgr sess].
    destruct (rm_perform w (fst (mgr st))) as [[e|o] m']; cbn [fst snd].
    + intros [= <- <-]. reflexivity.
    + intros E. apply IH in E. exact E.
Qed.

Lemma release_all_erase hs :
  forall (mt : Traced M),
    fst (release_all hs mt) = fst (release_all hs (fst mt)) /\
    fst (snd (release_all hs mt)) = snd (release_all hs (fst mt)).
Proof.
  induction hs as [|h hs IH]; intros mt; cbn [release_all]; [auto|].
  rewrite traced_release.
  destruct (rm_release (rh_resource h) (fst mt)) as [ok m1]. cbn [fst snd].
  specialize (IH (m1, snd mt ++ [CallRelease (rh_resource h) ok])).
  cbn [fst] in IH.
  revert IH. destruct (release_all hs m1) as [failed' m2].
  match goal with
  | |- context [@release_all ?T ?I hs ?x] =>
      destruct (@release_all T I hs x) as [failed mt2]
  end.
  cbn [fst snd]. intros [-> ->]. auto.
Qed.

Lemma unwind_erase (st : Run (Traced M)) :
  fst (unwind st) = fst (unwind (erase st)) /\
  erase (snd (unwind st)) = snd (unwind (erase st)).
Proof.
  unfold unwind, erase. cbn [sess mgr].
  generalize (release_all_erase (live (sess st)) (mgr st)).
  destruct (release_all (live (sess st)) (fst (mgr st))) as [failed' m'].
  match goal with
  | |- context [@release_all ?T ?I (live (sess st)) (mgr st)] =>
      destruct (@release_all T I (live (sess st)) (mgr st)) as [failed mt']
  end.
  cbn [fst snd sess mgr]. intros [-> ->]. auto.
Qed.

(** *** The calls of a pipeline and of [unwind] *)

(** Running a pipeline sends the manager no release call; the live list
    gains exactly the resources the manager handed out, the latest first,
    numbered consecutively from the session's next sequence number. *)
Lemma traced_exec {A} (p : Prog A) :
  forall (st : Run (Traced M)) r st',
    exec p st = (r, st') ->
    exists calls,
      trace st' = trace st ++ calls /\
      release_calls calls = [] /\
      map rh_resource (live (sess st')) =
        rev (handed_out calls) ++ map rh_resource (live (sess st)) /\
      map rh_seq (live (sess st')) =
        rev (map (fun i => (next_seq (sess st) + N.of_nat i)%N)
                 (seq 0 (length (handed_out calls))))
        ++ map rh_seq (live (sess st)) /\
      status (sess st') = status (sess st).
Proof.
  induction p as [a|r k IH|w k IH]; intros st res st'; cbn [exec].
  - intros [= <- <-]. exists []. rewrite app_nil_r. repeat split; reflexivity.
  - rewrite traced_acquire.
    destruct (rm_acquire r (fst (mgr st))) as [[e|x] m']; cbn [fst snd].
    + intros [= <- <-]. exists [CallAcquire r (inl e)]. repeat split; reflexivity.
    + intros E. apply IH in E as (calls & Ht & Hrel & Hres & Hseq & Hst).
      unfold trace in *. cbn [mgr sess push live next_seq status snd map] in *.
      exists (CallAcquire r (inr x) :: calls).
      change (handed_out (CallAcquire r (inr x) :: calls)) with (x :: handed_out calls).
      change (release_calls (CallAcquire r (inr x) :: calls)) with (release_calls calls).
      split; [rewrite Ht, <- app_assoc; reflexivity|].
      split; [exact Hrel|]. split; [|split; [|exact Hst]].
      * rewrite Hres. cbn [rev]. rewrite <- app_assoc. reflexivity.
      * rewrite Hseq. cbn [length seq map rev]. rewrite N.add_0_r, <- app_assoc.
        cbn [app]. f_equal. f_equal.
        rewrite <- seq_shift, map_map. apply map_ext. intros i. lia.
  - rewrite traced_perform.
    destruct (rm_perform w (fst (mgr st))) as [[e|o] m']; cbn [fst snd].
    + intros [= <- <-]. exists [CallPerform w (inl e)]. repeat split; reflexivity.
    + intros E. apply IH in E as (calls & Ht & Hrel & Hres & Hseq & Hst).
      unfold trace in *. cbn [mgr sess snd] in *.
      exists (CallPerform w (inr o) :: calls).
      split; [rewrite Ht, <- app_assoc; reflexivity|].
      repeat split; assumption.
Qed.

(** [release_all] sends the manager one release call per handle of the
    list and nothing else, in the order of the list; the handles it
    returns are those whose release the manager reported as failed. *)
Lemma traced_release_all hs :
  forall (mt : Traced M) failed mt',
    release_all hs mt = (failed, mt') ->
    exists rels,
      snd mt' = snd mt ++ rels /\
      Forall is_release_call rels /\
      release_calls rels = map rh_resource hs /\
      handed_out rels = [] /\
      failed_releases rels = map rh_resource failed.
Proof.
  induction hs as [|h hs IH]; intros mt failed mt'; cbn [release_all].
  - intros [= <- <-]. exists []. rewrite app_nil_r. repeat split; constructor.
  - rewrite traced_release.
    destruct (rm_release (rh_resource h) (fst mt)) as [ok m1]. cbn [fst snd].
    match goal with
    | |- context [@release_all ?T ?I hs ?x] =>
        destruct (@release_all T I hs x) as [failed' mt2] eqn:E
    end.
    intros [= <- <-]. apply IH in E as (rels & Ht & Hall & Hrel & Hout & Hfail).
    cbn [snd] in Ht.
    exists (CallRelease (rh_resource h) ok :: rels).
    split; [rewrite Ht, <- app_assoc; reflexivity|].
    split; [constructor; [now exists (rh_resource h), ok|exact Hall]|].
    change (release_calls (CallRelease (rh_resource h) ok :: rels))
      with (rh_resource h :: release_calls rels).
    change (handed_out (CallRelease (rh_resource h) ok :: rels)) with (handed_out rels).
    split; [cbn [map]; now rewrite Hrel|]. split; [exact Hout|].
    destruct ok.
    + change (failed_releases (CallRelease (rh_resource h) true :: rels))
        with (failed_releases rels). exact Hfail.
    + change (failed_releases (CallRelease (rh_resource h) false :: rels))
        with (rh_resource h :: failed_releases rels).
      cbn [map]. now rewrite Hfail.
Qed.

(** C1.  Take any pipeline and any resource manager, run the pipeline
    on a fresh session and unwind where it stopped, writing down every
    call the manager receives.  Before [unwind] the manager has received
    no release call and the live list holds exactly the resources it
    handed out, the latest first, numbered 0, 1, 2, ... in the order of
    acquisition.  [unwind] then sends the manager release calls only: one
    for each resource handed out, no other, in the reverse of the order in
    which they were handed out; the handles it reports are those whose
    release the manager answered as failed; the live list is left empty.
    The calls are those the manager receives when it is not traced. *)
Theorem unwind_releases_in_reverse {A} (p : Prog A) backing pl (m : M) :
  let st1 := snd (exec p (start backing pl ((m, []) : Traced M))) in
  let st2 := snd (unwind st1) in
  map rh_resource (live (sess st1)) = rev (handed_out (trace st1)) /\
  map rh_seq (live (sess st1)) =
    rev (map N.of_nat (seq 0 (length (handed_out (trace st1))))) /\
  release_calls (trace st1) = [] /\
  (exists rels,
     trace st2 = trace st1 ++ rels /\
     Forall is_release_call rels /\
     release_calls rels = rev (handed_out (trace st1)) /\
     length rels = length (handed_out (trace st1)) /\
     failed_releases rels = map rh_resource (fst (unwind st1))) /\
  handed_out (trace st2) = handed_out (trace st1) /\
  release_calls (trace st2) = rev (handed_out (trace st2)) /\
  live (sess st2) = [] /\
  erase st2 = snd (unwind (snd (exec p (start backing pl m)))).
Proof.
  intros st1 st2. subst st2 st1.
  destruct (exec p (start backing pl ((m, []) : Traced M))) as [r st1] eqn:E.
  cbn [snd].
  pose proof (exec_erase p _ _ _ E) as Her.
  apply traced_exec in E as (calls & Ht & Hrel & Hres & Hseq & _).
  unfold trace in Ht. cbn [start sess mgr live next_seq snd map app] in Ht, Hres, Hseq.
  rewrite app_nil_r in Hres, Hseq.
  assert (Hcalls : trace st1 = calls) by exact Ht. clear Ht.
  rewrite Hcalls.
  destruct (unwind_erase st1) as [_ Hue].
  unfold unwind in *.
  destruct (release_all (live (sess st1)) (mgr st1)) as [failed mt'] eqn:R.
  apply traced_release_all in R as (rels & Ht' & Hall & Hrel' & Hout' & Hfail).
  cbn [fst snd sess mgr live set_session] in *. unfold trace. cbn [mgr].
  fold (trace st1) in Ht'. rewrite Hcalls in Ht'.
  assert (Hlen : length rels = length (handed_out calls)).
  { assert (Hr : length rels = length (release_calls rels)).
    { clear -Hall. induction Hall as [|c l [x [ok ->]] _ IH]; [reflexivity|].
      change (release_calls (CallRelease x ok :: l)) with (x :: release_calls l).
      cbn [length]. now rewrite IH. }
    rewrite Hr, Hrel', Hres, length_rev. reflexivity. }
  split; [exact Hres|]. split.
  { exact Hseq. }
  split; [exact Hrel|]. split.
  { exists rels. rewrite Hrel', Hres. auto. }
  rewrite Ht', handed_out_app, release_calls_app, Hout', Hrel, Hrel', Hres, app_nil_r.
  cbn [app]. repeat split.
  rewrite Hue. unfold erase in Her. cbn [start sess mgr fst] in Her.
  unfold start. rewrite Her. reflexivity.
Qed.

(** The driver unwinds on every exit path: whether the pipeline succeeds
    or fails, when [build] returns the manager has received a release call
    for every resource it handed out, in reverse order, the session has no
    live handle, and its status tells how the pipeline ended. *)
Lemma build_releases_what_was_handed_out {A} (p : Prog A) backing pl (m : M) :
  let '(r, failed, st) := build p backing pl ((m, []) : Traced M) in
  release_calls (trace st) = rev (handed_out (trace st)) /\
  live (sess st) = [] /\
  status (sess st) = match r with inr _ => Succeeded | inl e => Failed e end.
Proof.
  unfold build.
  destruct (exec p (start backing pl ((m, []) : Traced M))) as [r st1] eqn:E.
  apply traced_exec in E as (calls & Ht & Hrel & Hres & _ & _).
  unfold trace in Ht. cbn [start sess mgr live snd map app] in Ht, Hres.
  rewrite app_nil_r in Hres.
  unfold unwind.
  destruct (release_all (live (sess st1)) (mgr st1)) as [failed mt'] eqn:R.
  apply traced_release_all in R as (rels & Ht' & _ & Hrel' & Hout' & _).
  unfold trace. cbn [sess mgr live status set_session].
  rewrite Ht', Ht, handed_out_app, release_calls_app, Hout', Hrel, Hrel', Hres, app_nil_r.
  auto.
Qed.

End TeardownFacts.

Section TeardownScenarios.
Import Teardown.
Local Close Scope string_scope.

(** On the scenario of section 8 the pipeline is handed nine resources
    and [unwind] sends nine release calls, the last resource first; the
    busy root mount costs the host a second unmount, not the manager a
    second release call, and the host is left as it was found. *)
Lemma unwind_releases_in_reverse_witness :
  length (handed_out (trace scenario_before_unwind)) = 9%nat /\
  release_calls (trace (snd (unwind scenario_before_unwind))) =
    rev (handed_out (trace (snd (unwind scenario_before_unwind)))) /\
  fst (mgr (snd (unwind scenario_before_unwind))) = fake_host 8.
Proof.
  split; [vm_compute; reflexivity|]. split.
  - exact (proj1 (proj2 (proj2 (proj2 (proj2 (proj2
      (unwind_releases_in_reverse scenario_pipeline "pi.img"%string
         Planner.scenario_plan (fake_host 8)))))))).
  - vm_compute; reflexivity.
Defined.

End TeardownScenarios.
